(** * CloseCaption: the PCM encoder, the transcript assembler and the
      capture life cycle of [src/App.tsx]

    The development embeds the functions of [App.tsx] that carry behaviour:
    [encode] and [createBlob] (the PCM encoder), the [onmessage] callback
    (the transcript assembler), and [startCapture], [onopen] and
    [stopCapture] (the capture manager with its session handle).

    Conventions.
    - A JavaScript string is the list of its UTF-16 code units.
    - A JavaScript number that comes out of a [Float32Array] is [NaN], an
      infinity, or a finite value given by its exact rational value.
    - React state and refs are fields of a record; calls on browser objects
      are recorded, in program order, in a log of events.
    - An [async] function is split at its [await]s; what an awaited promise
      settles to is an input of the segment that runs after the [await]. *)

From Stdlib Require Import ZArith List Bool Lia String Ascii QArith Qabs Lqa.
From Stdlib Require Import Floats.SpecFloat.
Import ListNotations.

Local Open Scope Z_scope.

(* ================================================================== *)
(** ** JavaScript strings *)

Module JSString.

(** A string value: its UTF-16 code units, in order. *)
Definition jsstring := list Z.

(** A literal written in the source, all of whose characters are ASCII. *)
Fixpoint lit (s : string) : jsstring :=
  match s with
  | EmptyString => []
  | String c s' => Z.of_N (N_of_ascii c) :: lit s'
  end.

(** A string is truthy when it is not empty. *)
Definition truthy (s : jsstring) : bool :=
  match s with [] => false | _ :: _ => true end.

(** The code units that [String.prototype.trim] strips: ECMAScript's
    WhiteSpace and LineTerminator productions. *)
Definition isWhiteSpace (c : Z) : bool :=
  (c =? 9) || (c =? 10) || (c =? 11) || (c =? 12) || (c =? 13) || (c =? 32)
  || (c =? 160) || (c =? 5760)
  || ((8192 <=? c) && (c <=? 8202))
  || (c =? 8232) || (c =? 8233) || (c =? 8239) || (c =? 8287)
  || (c =? 12288) || (c =? 65279).

Fixpoint trimStart (s : jsstring) : jsstring :=
  match s with
  | [] => []
  | c :: s' => if isWhiteSpace c then trimStart s' else s
  end.

Definition trimEnd (s : jsstring) : jsstring := rev (trimStart (rev s)).

(** [s.trim()] *)
Definition trim (s : jsstring) : jsstring := trimEnd (trimStart s).

(** [s + t] where [t] may be [undefined]: the operand is converted with
    ToString, and ToString(undefined) is the string "undefined". *)
Definition ToString (t : option jsstring) : jsstring :=
  match t with
  | Some s => s
  | None => lit "undefined"
  end.

Definition all_whitespace (s : jsstring) : bool := forallb isWhiteSpace s.

End JSString.

(* ================================================================== *)
(** ** React state of the component *)

Module AppState.
Import JSString.

(** The [useState] cells of [App] that the core reads or writes
    (lines 31-37). *)
Record t := mk {
  isCapturing : bool;
  transcripts : list jsstring;
  currentTranscript : jsstring;
  error : option jsstring
}.

(** The values of the first render. *)
Definition initial : t := mk false [] [] None.

Definition setIsCapturing (b : bool) (st : t) : t :=
  mk b (transcripts st) (currentTranscript st) (error st).

Definition setError (e : option jsstring) (st : t) : t :=
  mk (isCapturing st) (transcripts st) (currentTranscript st) e.

(** A functional update [setX(prev => ...)]. *)
Definition Updater (A : Type) : Type := A -> A.

Definition setTranscripts (f : Updater (list jsstring)) (st : t) : t :=
  mk (isCapturing st) (f (transcripts st)) (currentTranscript st) (error st).

(** An updater given to [setCurrentTranscript] may itself call
    [setTranscripts] while it runs (line 103).  It is therefore a function
    from the previous value to the next value and the [transcripts] updaters
    it enqueued; these are applied, in order, once it has returned.  Each
    updater runs once. *)
Definition CurrentUpdater : Type :=
  jsstring -> jsstring * list (Updater (list jsstring)).

Definition setCurrentTranscript (f : CurrentUpdater) (st : t) : t :=
  let '(next, enqueued) := f (currentTranscript st) in
  fold_left (fun s u => setTranscripts u s) enqueued
            (mk (isCapturing st) (transcripts st) next (error st)).

End AppState.

(* ================================================================== *)
(** ** Transcript assembler: the [onmessage] callback (lines 95-108) *)

Module Assembler.
Import JSString AppState.

(** The fields of [LiveServerMessage] that the callback reads.  Every one
    of them is optional in the type declarations of [@google/genai]. *)
Record Transcription := { text : option jsstring; finished : option bool }.

Record LiveServerContent := {
  inputTranscription : option Transcription;
  turnComplete : option bool
}.

Record LiveServerMessage := { serverContent : option LiveServerContent }.

(** [message.serverContent?.inputTranscription] *)
Definition get_inputTranscription (message : LiveServerMessage)
  : option Transcription :=
  match serverContent message with
  | Some sc => inputTranscription sc
  | None => None
  end.

(** [message.serverContent?.turnComplete], as a condition. *)
Definition get_turnComplete (message : LiveServerMessage) : bool :=
  match serverContent message with
  | Some sc => match turnComplete sc with Some b => b | None => false end
  | None => false
  end.

(** [prev => prev + text] (line 98) *)
Definition appendDelta (text : option jsstring) : CurrentUpdater :=
  fun prev => (prev ++ ToString text, []).

(** The updater of lines 101-106. *)
Definition flushTurn : CurrentUpdater :=
  fun prevCurrent =>
    if truthy (trim prevCurrent)
    then ([], [fun prevHistory => prevHistory ++ [trim prevCurrent]])
    else ([], []).

Definition onmessage (message : LiveServerMessage) (st : AppState.t)
  : AppState.t :=
  let st1 :=
    match get_inputTranscription message with
    | Some tr => setCurrentTranscript (appendDelta (text tr)) st
    | None => st
    end in
  if get_turnComplete message
  then setCurrentTranscript flushTurn st1
  else st1.

(** The callback run on each message of a sequence, in arrival order. *)
Definition assemble (messages : list LiveServerMessage) (st : AppState.t)
  : AppState.t :=
  fold_left (fun s m => onmessage m s) messages st.

(** The message shapes the specification names. *)
Definition transcriptDelta (s : jsstring) : LiveServerMessage :=
  {| serverContent :=
       Some {| inputTranscription := Some {| text := Some s; finished := None |};
               turnComplete := None |} |}.

Definition turnCompleteMsg : LiveServerMessage :=
  {| serverContent :=
       Some {| inputTranscription := None; turnComplete := Some true |} |}.

(** A transcription payload whose [text] field is absent. *)
Definition transcriptionWithoutText : LiveServerMessage :=
  {| serverContent :=
       Some {| inputTranscription := Some {| text := None; finished := None |};
               turnComplete := None |} |}.

(** A message without [serverContent]. *)
Definition emptyMessage : LiveServerMessage := {| serverContent := None |}.

End Assembler.

(* ================================================================== *)
(** ** PCM encoder: [encode] (lines 9-16) and [createBlob] (lines 18-28) *)

Module Encoder.
Import JSString.

(** A JavaScript number read from a [Float32Array].  A finite value is
    represented by its exact rational value; the sign of a zero is not
    kept, since neither [x < 0] nor the conversion to a 16-bit integer
    distinguishes the two zeros.

    A finite binary32 value has a significand of at most 24 bits, and 32767
    and 32768 have at most 16, so the binary64 products [x * 32767] and
    [x * 32768] that the source computes carry at most 40 significant bits
    and are exact: the rational product below is the product the program
    computes. *)
Inductive number :=
| NaN
| Infinity (negative : bool)
| Finite (q : Q).

Definition Qneg_bool (q : Q) : bool := Qnum q <? 0.
Definition Qzero_bool (q : Q) : bool := Qnum q =? 0.

(** [x < y] for a finite right operand. *)
Definition lt (x : number) (y : Q) : bool :=
  match x with
  | NaN => false
  | Infinity negative => negative
  | Finite q => match q ?= y with Lt => true | _ => false end
  end%Q.

(** [x * y] *)
Definition mul (x y : number) : number :=
  match x, y with
  | NaN, _ | _, NaN => NaN
  | Infinity s, Infinity t => Infinity (xorb s t)
  | Infinity s, Finite q | Finite q, Infinity s =>
      if Qzero_bool q then NaN else Infinity (xorb s (Qneg_bool q))
  | Finite p, Finite q => Finite (p * q)
  end.

Definition of_Z (n : Z) : number := Finite (inject_Z n).

(** The integer part of a rational, rounding toward zero. *)
Definition truncate (q : Q) : Z := Z.quot (Qnum q) (Z.pos (Qden q)).

(** ToInt16, the conversion applied by a store into an [Int16Array]. *)
Definition ToInt16 (x : number) : Z :=
  match x with
  | NaN | Infinity _ => 0
  | Finite q =>
      let int16bit := (truncate q) mod 65536 in
      if int16bit >=? 32768 then int16bit - 65536 else int16bit
  end.

(** The right-hand side of line 22, as stored into [int16[i]]. *)
Definition sample16 (x : number) : Z :=
  ToInt16 (if lt x 0 then mul x (of_Z 32768) else mul x (of_Z 32767)).

(** The two bytes that a 16-bit element occupies in the array's buffer, in
    the byte order of the host, which is little-endian on the platforms
    that run this code: low byte first. *)
Definition int16_bytes (v : Z) : list Z := [v mod 256; (v / 256) mod 256].

(** [new Uint8Array(int16.buffer)] *)
Definition buffer_bytes (int16 : list Z) : list Z := flat_map int16_bytes int16.

(** [String.fromCharCode(n)] *)
Definition fromCharCode (n : Z) : Z := n mod 65536.

(** The base64 alphabet: the code unit of the digit of value [n]. *)
Definition b64char (n : Z) : Z :=
  if n <? 26 then 65 + n
  else if n <? 52 then 97 + (n - 26)
  else if n <? 62 then 48 + (n - 52)
  else if n =? 62 then 43
  else 47.

(** The code unit of the padding character [=]. *)
Definition pad : Z := 61.

Fixpoint b64groups (s : jsstring) : jsstring :=
  match s with
  | [] => []
  | [a] => [b64char (a / 4); b64char ((a mod 4) * 16); pad; pad]
  | [a; b] =>
      [b64char (a / 4); b64char ((a mod 4) * 16 + b / 16);
       b64char ((b mod 16) * 4); pad]
  | a :: b :: c :: rest =>
      b64char (a / 4) :: b64char ((a mod 4) * 16 + b / 16)
      :: b64char ((b mod 16) * 4 + c / 64) :: b64char (c mod 64)
      :: b64groups rest
  end.

(** The browser's [btoa]: base64 of a string whose code units are all
    below 256; [None] stands for the InvalidCharacterError it throws on any
    other string. *)
Definition btoa (s : jsstring) : option jsstring :=
  if forallb (fun c => (0 <=? c) && (c <=? 255)) s
  then Some (b64groups s)
  else None.

(** [encode]: the loop of lines 12-14 appends one character per byte. *)
Definition encode (bytes : list Z) : option jsstring :=
  let binary :=
    fold_left (fun binary b => binary ++ [fromCharCode b]) bytes [] in
  btoa binary.

(** The [Blob] of [@google/genai]. *)
Record Blob := { data : jsstring; mimeType : jsstring }.

Definition createBlob (samples : list number) : option Blob :=
  let int16 := map sample16 samples in
  match encode (buffer_bytes int16) with
  | Some payload =>
      Some {| data := payload; mimeType := lit "audio/pcm;rate=16000" |}
  | None => None
  end.

(** *** The binary64 product, for comparison

    [binary64 m e] is the IEEE 754 binary64 number nearest to [m * 2^e], and
    [SFmul 53 1024] is the binary64 multiplication, both as the standard
    library specifies them; [number_of_binary64] reads such a number back. *)
Definition binary64 (m e : Z) : spec_float := binary_normalize 53 1024 m e false.

Definition number_of_binary64 (f : spec_float) : number :=
  match f with
  | S754_zero _ => Finite 0
  | S754_infinity s => Infinity s
  | S754_nan => NaN
  | S754_finite s m e => Finite (inject_Z (cond_Zopp s (Z.pos m)) * (2 ^ e))
  end.

Definition number_eqb (x y : number) : bool :=
  match x, y with
  | NaN, NaN => true
  | Infinity s, Infinity t => Bool.eqb s t
  | Finite p, Finite q => Qeq_bool p q
  | _, _ => false
  end.

(** The source's product [x * k] computed in binary64 agrees with [mul] at
    the binary32 value [m * 2^e]. *)
Definition product_is_exact (m e k : Z) : bool :=
  number_eqb
    (number_of_binary64 (SFmul 53 1024 (binary64 m e) (binary64 k 0)))
    (mul (number_of_binary64 (binary64 m e)) (of_Z k)).

(** The value ranges of a byte and of a signed 16-bit integer. *)
Definition is_byte (b : Z) : Prop := 0 <= b <= 255.
Definition is_int16 (v : Z) : Prop := -32768 <= v <= 32767.

(** *** The receiving side

    The repository holds no decoder.  The definitions below read a chunk
    the way its consumer does (base64 text to bytes, byte pairs to signed
    16-bit samples, samples to floating point) and serve only to state what
    the encoder produces. *)

Definition b64val (c : Z) : option Z :=
  if (65 <=? c) && (c <=? 90) then Some (c - 65)
  else if (97 <=? c) && (c <=? 122) then Some (c - 71)
  else if (48 <=? c) && (c <=? 57) then Some (c + 4)
  else if c =? 43 then Some 62
  else if c =? 47 then Some 63
  else None.

Definition bind_opt {A B} (o : option A) (k : A -> option B) : option B :=
  match o with Some a => k a | None => None end.

Fixpoint base64_decode (s : jsstring) : option (list Z) :=
  match s with
  | [] => Some []
  | c1 :: c2 :: c3 :: c4 :: rest =>
      bind_opt (b64val c1) (fun v1 =>
      bind_opt (b64val c2) (fun v2 =>
      if c4 =? pad then
        match rest with
        | [] =>
            if c3 =? pad then Some [v1 * 4 + v2 / 16]
            else bind_opt (b64val c3) (fun v3 =>
                 Some [v1 * 4 + v2 / 16; (v2 mod 16) * 16 + v3 / 4])
        | _ :: _ => None
        end
      else
        bind_opt (b64val c3) (fun v3 =>
        bind_opt (b64val c4) (fun v4 =>
        bind_opt (base64_decode rest) (fun tl =>
        Some (v1 * 4 + v2 / 16 :: (v2 mod 16) * 16 + v3 / 4
              :: (v3 mod 4) * 64 + v4 :: tl))))))
  | _ => None
  end.

(** The strict reading of base64 text: as [base64_decode], but a last
    group that is padded must carry zeros in the bits that hold no data, so
    that a sequence of bytes has one text only. *)
Fixpoint base64_decode_strict (s : jsstring) : option (list Z) :=
  match s with
  | [] => Some []
  | c1 :: c2 :: c3 :: c4 :: rest =>
      bind_opt (b64val c1) (fun v1 =>
      bind_opt (b64val c2) (fun v2 =>
      if c4 =? pad then
        match rest with
        | [] =>
            if c3 =? pad
            then if v2 mod 16 =? 0 then Some [v1 * 4 + v2 / 16] else None
            else bind_opt (b64val c3) (fun v3 =>
                 if v3 mod 4 =? 0
                 then Some [v1 * 4 + v2 / 16; (v2 mod 16) * 16 + v3 / 4]
                 else None)
        | _ :: _ => None
        end
      else
        bind_opt (b64val c3) (fun v3 =>
        bind_opt (b64val c4) (fun v4 =>
        bind_opt (base64_decode_strict rest) (fun tl =>
        Some (v1 * 4 + v2 / 16 :: (v2 mod 16) * 16 + v3 / 4
              :: (v3 mod 4) * 64 + v4 :: tl))))))
  | _ => None
  end.

(** A signed 16-bit value from its two bytes, low byte first. *)
Definition int16_of_bytes (lo hi : Z) : Z :=
  let u := lo + 256 * hi in
  if u >=? 32768 then u - 65536 else u.

Fixpoint int16_le_samples (bytes : list Z) : option (list Z) :=
  match bytes with
  | [] => Some []
  | lo :: hi :: rest =>
      bind_opt (int16_le_samples rest) (fun tl =>
      Some (int16_of_bytes lo hi :: tl))
  | [_] => None
  end.

(** The inverse of the scaling: a negative sample is divided by 32768 and
    a non-negative one by 32767. *)
Definition decode_sample (v : Z) : Q :=
  if v <? 0 then inject_Z v / 32768 else inject_Z v / 32767.

(** One quantization step at the sample [q]. *)
Definition quantization_step (q : Q) : Q :=
  if Qneg_bool q then 1 / 32768 else 1 / 32767.

End Encoder.

(* ================================================================== *)
(** ** Capture manager: [startCapture], [onopen], [onerror], [stopCapture] *)

Module Capture.
Import JSString.

(** *** Browser and SDK objects *)

(** A thrown value or a rejection reason. *)
Variant Exn := exn (what : string).

Variant TrackState := live | ended.

Record MediaStreamTrack := { track_id : nat; readyState : TrackState }.

(** A [MediaStream]; [tracks] is what [getTracks()] returns. *)
Record MediaStream := { tracks : list MediaStreamTrack }.

Variant ContextState := suspended | running | closed.

Record AudioContext := { context_id : nat; state : ContextState }.

Record ScriptProcessorNode := { node_id : nat }.

(** The session object a connection resolves to; [close_throws] tells
    whether its [close()] throws. *)
Record Session := { session_id : nat; close_throws : bool }.

(** The promise returned by [ai.live.connect]. *)
Record SessionPromise := { promise_id : nat }.

(** How a call completes, or how an awaited promise settles: awaiting a
    rejected promise throws its reason at the [await]. *)
Variant Completion (A : Type) :=
| Normal (a : A)
| Throw (e : Exn).
Arguments Normal {A} a.
Arguments Throw {A} e.

(** Calls on browser objects and on the console, in program order. *)
Variant Event :=
| GetUserMedia
| NewAudioContext (context : nat)
| LiveConnect (promise : nat)
| CreateMediaStreamSource (context : nat)
| CreateScriptProcessor (node : nat)
| ConnectGraph (node : nat)
| SessionClose (session : nat)
| TrackStop (track : nat)
| ProcessorDisconnect (node : nat)
| ContextClose (context : nat)
| ConsoleError (label : string).

(** *** The component's state: React state, refs (lines 40-43), and the
    log of calls made so far. *)
Record World := mkWorld {
  ui : AppState.t;
  sessionPromiseRef : option SessionPromise;
  audioContextRef : option AudioContext;
  streamRef : option MediaStream;
  scriptProcessorRef : option ScriptProcessorNode;
  log : list Event
}.

Definition initial : World :=
  mkWorld AppState.initial None None None None [].

Definition update_ui (f : AppState.t -> AppState.t) (w : World) : World :=
  mkWorld (f (ui w)) (sessionPromiseRef w) (audioContextRef w) (streamRef w)
          (scriptProcessorRef w) (log w).

Definition set_sessionPromiseRef (v : option SessionPromise) (w : World) :=
  mkWorld (ui w) v (audioContextRef w) (streamRef w) (scriptProcessorRef w)
          (log w).

Definition set_audioContextRef (v : option AudioContext) (w : World) :=
  mkWorld (ui w) (sessionPromiseRef w) v (streamRef w) (scriptProcessorRef w)
          (log w).

Definition set_streamRef (v : option MediaStream) (w : World) :=
  mkWorld (ui w) (sessionPromiseRef w) (audioContextRef w) v
          (scriptProcessorRef w) (log w).

Definition set_scriptProcessorRef (v : option ScriptProcessorNode) (w : World) :=
  mkWorld (ui w) (sessionPromiseRef w) (audioContextRef w) (streamRef w) v
          (log w).

Definition emit (es : list Event) (w : World) : World :=
  mkWorld (ui w) (sessionPromiseRef w) (audioContextRef w) (streamRef w)
          (scriptProcessorRef w) (log w ++ es).

(** *** Statements that may throw *)

Definition M (A : Type) : Type := World -> World * Completion A.

Definition ret {A} (a : A) : M A := fun w => (w, Normal a).

Definition bind {A B} (c : M A) (k : A -> M B) : M B :=
  fun w =>
    match c w with
    | (w', Normal a) => k a w'
    | (w', Throw e) => (w', Throw e)
    end.

Notation "x <- c ;; k" := (bind c (fun x => k))
  (at level 61, c at next level, right associativity).
Notation "c ;; k" := (bind c (fun _ => k))
  (at level 61, right associativity).

Definition modify (f : World -> World) : M unit :=
  fun w => (f w, Normal tt).

(** A call whose completion is decided by the environment. *)
Definition call {A} (es : list Event) (c : Completion A) : M A :=
  fun w => (emit es w, c).

(** [try { body } catch (err) { handler }] *)
Definition try_catch (body : M unit) (handler : Exn -> M unit) : M unit :=
  fun w =>
    match body w with
    | (w', Normal _) => (w', Normal tt)
    | (w', Throw e) => handler e w'
    end.

(** *** [startCapture] (lines 61-132) *)

(** What the environment answers to the calls of [startCapture]. *)
Record StartEnv := {
  getUserMedia : Completion MediaStream;
  new_GoogleGenAI : Completion unit;
  new_AudioContext : Completion AudioContext;
  live_connect : Completion SessionPromise
}.

Definition micError : jsstring :=
  lit "Could not access microphone. Please grant permission and try again.".

Definition apiError : jsstring :=
  lit "An API error occurred. Please try again.".

(** Lines 62-68: the four resets, then the call of [getUserMedia], at
    whose [await] the function suspends. *)
Definition start_enter (w : World) : World :=
  let w := update_ui (AppState.setTranscripts (fun _ => [])) w in
  let w := update_ui (AppState.setCurrentTranscript (fun _ => ([], []))) w in
  let w := update_ui (AppState.setError None) w in
  let w := update_ui (AppState.setIsCapturing true) w in
  emit [GetUserMedia] w.

Definition context_event (c : Completion AudioContext) : list Event :=
  match c with Normal ctx => [NewAudioContext (context_id ctx)] | Throw _ => [] end.

Definition connect_event (c : Completion SessionPromise) : list Event :=
  match c with Normal p => [LiveConnect (promise_id p)] | Throw _ => [] end.

(** Lines 68-125, from the point where the awaited [getUserMedia] promise
    has settled. *)
Definition start_try (env : StartEnv) : M unit :=
  stream <- call [] (getUserMedia env) ;;
  modify (set_streamRef (Some stream)) ;;
  call [] (new_GoogleGenAI env) ;;
  ctx <- call (context_event (new_AudioContext env)) (new_AudioContext env) ;;
  modify (set_audioContextRef (Some ctx)) ;;
  p <- call (connect_event (live_connect env)) (live_connect env) ;;
  modify (set_sessionPromiseRef (Some p)).

(** Lines 127-131. *)
Definition start_catch (err : Exn) : M unit :=
  modify (emit [ConsoleError "Error starting capture:"]) ;;
  modify (update_ui (AppState.setError (Some micError))) ;;
  modify (update_ui (AppState.setIsCapturing false)).

Definition start_resume (env : StartEnv) (w : World) : World :=
  fst (try_catch (start_try env) start_catch w).

(** Some call of the [try] block throws. *)
Definition start_throws (env : StartEnv) : bool :=
  match getUserMedia env, new_GoogleGenAI env, new_AudioContext env,
        live_connect env with
  | Normal _, Normal _, Normal _, Normal _ => false
  | _, _, _, _ => true
  end.

(** One whole invocation. *)
Definition startCapture (env : StartEnv) (w : World) : World :=
  start_resume env (start_enter w).

(** *** [onopen] (lines 78-93); [node] is the processor that
    [createScriptProcessor] returns. *)
Definition onopen (node : ScriptProcessorNode) (w : World) : World :=
  match audioContextRef w, streamRef w with
  | Some ctx, Some _ =>
      let w := emit [CreateMediaStreamSource (context_id ctx);
                     CreateScriptProcessor (node_id node)] w in
      let w := set_scriptProcessorRef (Some node) w in
      emit [ConnectGraph (node_id node)] w
  | _, _ => w
  end.

(** *** [stopCapture] (lines 134-161) *)

(** Where an invocation of [stopCapture] stands. *)
Variant StopPoint :=
| AwaitingSession (p : SessionPromise)   (* suspended at line 139 *)
| AwaitingContextClose                   (* suspended at line 158 *)
| Returned
| Threw (e : Exn).

(** [stream.getTracks().forEach(track => track.stop())] *)
Definition track_stops (stream : MediaStream) : list Event :=
  map (fun track => TrackStop (track_id track)) (tracks stream).

(** Lines 147-158, up to the [await] of [close()]. *)
Definition stop_teardown (w : World) : World * StopPoint :=
  let w :=
    match streamRef w with
    | Some stream => set_streamRef None (emit (track_stops stream) w)
    | None => w
    end in
  let w :=
    match scriptProcessorRef w with
    | Some node =>
        set_scriptProcessorRef None (emit [ProcessorDisconnect (node_id node)] w)
    | None => w
    end in
  match audioContextRef w with
  | Some ctx =>
      match state ctx with
      | closed => (w, Returned)
      | _ => (emit [ContextClose (context_id ctx)] w, AwaitingContextClose)
      end
  | None => (w, Returned)
  end.

(** Lines 135-139. *)
Definition stop_enter (w : World) : World * StopPoint :=
  let w := update_ui (AppState.setIsCapturing false) w in
  match sessionPromiseRef w with
  | Some p => (w, AwaitingSession p)
  | None => stop_teardown w
  end.

(** Lines 139-145, from the point where the awaited session promise has
    settled, followed by the teardown. *)
Definition stop_resume_session (settled : Completion Session) (w : World)
  : World * StopPoint :=
  let w :=
    match settled with
    | Normal session =>
        let w := emit [SessionClose (session_id session)] w in
        if close_throws session
        then emit [ConsoleError "Error closing session:"] w
        else w
    | Throw _ => emit [ConsoleError "Error closing session:"] w
    end in
  stop_teardown (set_sessionPromiseRef None w).

(** Lines 158-160, from the point where the promise of [close()] has
    settled. *)
Definition stop_resume_context (settled : Completion unit) (w : World)
  : World * StopPoint :=
  match settled with
  | Normal _ => (set_audioContextRef None w, Returned)
  | Throw e => (w, Threw e)
  end.

(** What the environment answers to the awaits of [stopCapture]. *)
Record StopEnv := {
  session_settles : Completion Session;
  context_close_settles : Completion unit
}.

(** One whole invocation, with nothing else running at its awaits. *)
Definition stopCapture (env : StopEnv) (w : World) : World * StopPoint :=
  let '(w1, p1) := stop_enter w in
  let '(w2, p2) :=
    match p1 with
    | AwaitingSession _ => stop_resume_session (session_settles env) w1
    | _ => (w1, p1)
    end in
  match p2 with
  | AwaitingContextClose => stop_resume_context (context_close_settles env) w2
  | _ => (w2, p2)
  end.

(** *** [onerror] (lines 110-114): the error is shown and [stopCapture] is
    called, not awaited. *)
Definition onerror (w : World) : World * StopPoint :=
  let w := emit [ConsoleError "Gemini API Error:"] w in
  let w := update_ui (AppState.setError (Some apiError)) w in
  stop_enter w.

(** *** Reading a log *)

Definition is_SessionClose (e : Event) : bool :=
  match e with SessionClose _ => true | _ => false end.
Definition is_TrackStop (e : Event) : bool :=
  match e with TrackStop _ => true | _ => false end.
Definition is_ProcessorDisconnect (e : Event) : bool :=
  match e with ProcessorDisconnect _ => true | _ => false end.
Definition is_ContextClose (e : Event) : bool :=
  match e with ContextClose _ => true | _ => false end.

(** Position of the first event of a kind. *)
Fixpoint first_index (kind : Event -> bool) (l : list Event) : option nat :=
  match l with
  | [] => None
  | e :: l' =>
      if kind e then Some O
      else match first_index kind l' with Some i => Some (S i) | None => None end
  end.

(** Both kinds occur, and the first [k1] comes before the first [k2]. *)
Definition precedes (k1 k2 : Event -> bool) (l : list Event) : bool :=
  match first_index k1 l, first_index k2 l with
  | Some i, Some j => Nat.ltb i j
  | _, _ => false
  end.

Definition count (kind : Event -> bool) (l : list Event) : nat :=
  List.length (filter kind l).

(** The calls that lines 147-158 make, read off the refs. *)
Definition teardown_events (w : World) : list Event :=
  match streamRef w with Some stream => track_stops stream | None => [] end
  ++ match scriptProcessorRef w with
     | Some node => [ProcessorDisconnect (node_id node)]
     | None => []
     end
  ++ match audioContextRef w with
     | Some ctx =>
         match state ctx with
         | closed => []
         | _ => [ContextClose (context_id ctx)]
         end
     | None => []
     end.

(** The calls that lines 139-143 make once the session promise has
    settled. *)
Definition session_events (settled : Completion Session) : list Event :=
  match settled with
  | Normal session =>
      SessionClose (session_id session)
      :: (if close_throws session
          then [ConsoleError "Error closing session:"] else [])
  | Throw _ => [ConsoleError "Error closing session:"]
  end.

(** The events logged between two states of the component. *)
Definition events_since (before after : World) : list Event :=
  skipn (List.length (log before)) (log after).

(** The order of teardown as the specification words it: tracks, then the
    processing graph, then the context, and the session last. *)
Definition session_closed_last (l : list Event) : bool :=
  precedes is_TrackStop is_ProcessorDisconnect l
  && precedes is_ProcessorDisconnect is_ContextClose l
  && precedes is_ContextClose is_SessionClose l.

(** The microphone is held: some track of the referenced stream is live. *)
Definition holds_live_stream (w : World) : bool :=
  match streamRef w with
  | Some stream =>
      existsb (fun t => match readyState t with live => true | ended => false end)
              (tracks stream)
  | None => false
  end.

(** The component after a successful start whose connection has opened:
    one live track, a running context, a processor. *)
Definition okStream : MediaStream :=
  {| tracks := [{| track_id := 1; readyState := live |}] |}.
Definition okContext : AudioContext := {| context_id := 1; state := running |}.
Definition okPromise : SessionPromise := {| promise_id := 1 |}.
Definition okSession : Session := {| session_id := 1; close_throws := false |}.

Definition okStartEnv : StartEnv :=
  {| getUserMedia := Normal okStream;
     new_GoogleGenAI := Normal tt;
     new_AudioContext := Normal okContext;
     live_connect := Normal okPromise |}.

Definition okStopEnv : StopEnv :=
  {| session_settles := Normal okSession; context_close_settles := Normal tt |}.

Definition started : World :=
  onopen {| node_id := 1 |} (startCapture okStartEnv initial).

(** The microphone is granted but no [AudioContext] can be constructed. *)
Definition noContextEnv : StartEnv :=
  {| getUserMedia := Normal okStream;
     new_GoogleGenAI := Normal tt;
     new_AudioContext := Throw (exn "AudioContext is not a constructor");
     live_connect := Normal okPromise |}.

End Capture.

(* ================================================================== *)
(** ** The audio callback: [onaudioprocess] (lines 83-89) *)

Module AudioCallback.
Import JSString Encoder Capture.

(** A callback registered with [then] on the session promise: it holds the
    chunk it will send. *)
Record Reaction := { awaited : SessionPromise; media : Blob }.

(** [session.sendRealtimeInput({ media })] *)
Variant Sent := SendRealtimeInput (session : nat) (chunk : Blob).

(** The handler: the block is encoded first; then, if a session promise is
    referenced, a reaction is registered on it
    ([sessionPromiseRef.current?.then(...)]). *)
Definition onaudioprocess (inputData : list number) (w : World)
  : Completion (option Reaction) :=
  match createBlob inputData with
  | Some pcmBlob =>
      Normal
        match sessionPromiseRef w with
        | Some promise => Some {| awaited := promise; media := pcmBlob |}
        | None => None
        end
  | None => Throw (exn "InvalidCharacterError")
  end.

(** The reaction, run when its promise has settled: it runs only on
    fulfilment. *)
Definition react (settled : Completion Session) (r : Reaction) : list Sent :=
  match settled with
  | Normal session => [SendRealtimeInput (session_id session) (media r)]
  | Throw _ => []
  end.

End AudioCallback.

(* ================================================================== *)
(** ** Readings used to state the properties *)

Module Readings.
Import JSString Assembler Capture.

(** A line as a flush stores it: not empty, and left unchanged by [trim]. *)
Definition is_trimmed_line (s : jsstring) : Prop := s <> [] /\ trim s = s.

(** The messages of a sequence that carry a turn boundary. *)
Definition count_turnComplete (messages : list LiveServerMessage) : nat :=
  List.length (filter get_turnComplete messages).

(** The environment of a start in which every call succeeds. *)
Definition grantedEnv (stream : MediaStream) (ctx : AudioContext)
           (promise : SessionPromise) : StartEnv :=
  {| getUserMedia := Normal stream;
     new_GoogleGenAI := Normal tt;
     new_AudioContext := Normal ctx;
     live_connect := Normal promise |}.

(** The component with nothing referenced. *)
Definition idle (u : AppState.t) (l : list Event) : World :=
  mkWorld u None None None None l.

End Readings.

(* ================================================================== *)
(** ** Callbacks and segments running one after another *)

Module Interleaving.
Import JSString Assembler Capture.

(** What can run between two points of an invocation: a segment of
    [stopCapture], a callback of the session, or the synchronous first part
    of [startCapture].  The part of [startCapture] that runs after its
    [await] is not among them. *)
Inductive Action :=
| StopEnter
| StopResumeSession (settled : Completion Session)
| StopResumeContext (settled : Completion unit)
| Onopen (node : ScriptProcessorNode)
| Onerror
| Onmessage (message : LiveServerMessage)
| StartEnter.

Definition perform (a : Action) (w : World) : World :=
  match a with
  | StopEnter => fst (stop_enter w)
  | StopResumeSession settled => fst (stop_resume_session settled w)
  | StopResumeContext settled => fst (stop_resume_context settled w)
  | Onopen node => onopen node w
  | Onerror => fst (onerror w)
  | Onmessage message => update_ui (onmessage message) w
  | StartEnter => start_enter w
  end.

Definition run (actions : list Action) (w : World) : World :=
  fold_left (fun w a => perform a w) actions w.

(** The component while the connection is being made: a start in which
    every call succeeded, before [onopen]. *)
Definition connecting : World := startCapture okStartEnv initial.

End Interleaving.

(* ================================================================== *)
(** * Properties *)

(** ** [trim] *)

Module JSStringFacts.
Import JSString.

Lemma trimStart_blank (s : jsstring) :
  trimStart s = [] <-> all_whitespace s = true.
Proof.
  unfold all_whitespace.
  induction s as [|c s IH]; simpl.
  - tauto.
  - destruct (isWhiteSpace c); simpl.
    + exact IH.
    + split; discriminate.
Qed.

Lemma all_whitespace_app (s t : jsstring) :
  all_whitespace (s ++ t) = all_whitespace s && all_whitespace t.
Proof. apply forallb_app. Qed.

Lemma all_whitespace_rev (s : jsstring) :
  all_whitespace (rev s) = all_whitespace s.
Proof.
  induction s as [|c s IH]; simpl; [reflexivity|].
  rewrite all_whitespace_app, IH. simpl.
  rewrite andb_true_r. apply andb_comm.
Qed.

(** What [trimStart] removes is a prefix of white space, and what it leaves
    does not start with white space. *)
Lemma trimStart_split (s : jsstring) :
  exists l, s = l ++ trimStart s /\ all_whitespace l = true
            /\ match trimStart s with
               | [] => True
               | c :: _ => isWhiteSpace c = false
               end.
Proof.
  induction s as [|c s (l & E & Hl & Hh)]; simpl.
  - exists []. auto.
  - destruct (isWhiteSpace c) eqn:Hc.
    + exists (c :: l). simpl. rewrite Hc, Hl. repeat split; [congruence|exact Hh].
    + exists []. simpl. auto.
Qed.

Lemma trimStart_idem_head (s : jsstring) :
  match s with [] => True | c :: _ => isWhiteSpace c = false end ->
  trimStart s = s.
Proof. destruct s as [|c s]; simpl; [reflexivity|]. now intros ->. Qed.

(** What [trimEnd] removes is a suffix of white space. *)
Lemma trimEnd_split (s : jsstring) :
  exists r, s = trimEnd s ++ r /\ all_whitespace r = true
            /\ match rev (trimEnd s) with
               | [] => True
               | c :: _ => isWhiteSpace c = false
               end.
Proof.
  unfold trimEnd.
  destruct (trimStart_split (rev s)) as (l & E & Hl & Hh).
  exists (rev l). rewrite rev_involutive. repeat split.
  - rewrite <- rev_app_distr, <- E. symmetry. apply rev_involutive.
  - now rewrite all_whitespace_rev.
  - exact Hh.
Qed.

Lemma trimEnd_keeps_head (s : jsstring) :
  match s with [] => True | c :: _ => isWhiteSpace c = false end ->
  match trimEnd s with [] => s = [] | c :: _ => isWhiteSpace c = false end.
Proof.
  intros Hs.
  destruct (trimEnd_split s) as (r & E & Hr & _).
  destruct (trimEnd s) as [|c t] eqn:Ht.
  - simpl in E. subst r. destruct s as [|c s]; [reflexivity|].
    simpl in Hr. rewrite Hs in Hr. discriminate.
  - rewrite E in Hs. exact Hs.
Qed.

(** [trim] is empty exactly on the strings made of white space only. *)
Lemma trim_blank (s : jsstring) :
  trim s = [] <-> all_whitespace s = true.
Proof.
  unfold trim.
  destruct (trimStart_split s) as (l & E & Hl & Hh).
  pose proof (trimEnd_keeps_head _ Hh) as Hk.
  split.
  - intros Ht. rewrite Ht in Hk. apply trimStart_blank. exact Hk.
  - intros Hs. apply trimStart_blank in Hs. rewrite Hs. reflexivity.
Qed.

(** [trim s] is [s] without a prefix and a suffix of white space, and it
    neither starts nor ends with white space. *)
Lemma trim_split (s : jsstring) :
  exists l r,
    s = l ++ trim s ++ r
    /\ all_whitespace l = true /\ all_whitespace r = true
    /\ match trim s with [] => True | c :: _ => isWhiteSpace c = false end
    /\ match rev (trim s) with [] => True | c :: _ => isWhiteSpace c = false end.
Proof.
  unfold trim.
  destruct (trimStart_split s) as (l & El & Hl & Hh).
  destruct (trimEnd_split (trimStart s)) as (r & Er & Hr & Hlast).
  exists l, r. repeat split; auto.
  - rewrite <- Er. exact El.
  - pose proof (trimEnd_keeps_head _ Hh) as Hk.
    destruct (trimEnd (trimStart s)); [exact I|exact Hk].
Qed.

Lemma truthy_trim (s : jsstring) :
  truthy (trim s) = negb (all_whitespace s).
Proof.
  destruct (all_whitespace s) eqn:Hs.
  - apply trim_blank in Hs. now rewrite Hs.
  - destruct (trim s) eqn:Ht; [|reflexivity].
    apply trim_blank in Ht. congruence.
Qed.

End JSStringFacts.

(* ================================================================== *)
(** ** The transcript assembler *)

Module AssemblerFacts.
Import JSString AppState Assembler JSStringFacts.

Lemma onmessage_delta (text : jsstring) (st : AppState.t) :
  onmessage (transcriptDelta text) st =
  mk (isCapturing st) (transcripts st) (currentTranscript st ++ text) (error st).
Proof. reflexivity. Qed.

Lemma onmessage_turnComplete (st : AppState.t) :
  onmessage turnCompleteMsg st =
  mk (isCapturing st)
     (match trim (currentTranscript st) with
      | [] => transcripts st
      | line => transcripts st ++ [line]
      end)
     [] (error st).
Proof.
  unfold onmessage, setCurrentTranscript, flushTurn. simpl.
  destruct (trim (currentTranscript st)); reflexivity.
Qed.

(** A message that carries neither a transcription nor a turn boundary
    leaves the state as it is. *)
Lemma onmessage_no_fields (message : LiveServerMessage) (st : AppState.t) :
  get_inputTranscription message = None ->
  get_turnComplete message = false ->
  onmessage message st = st.
Proof. unfold onmessage. now intros -> ->. Qed.

Lemma assemble_app (l1 l2 : list LiveServerMessage) (st : AppState.t) :
  assemble (l1 ++ l2) st = assemble l2 (assemble l1 st).
Proof. apply fold_left_app. Qed.

(** C1.  After any sequence of earlier messages, a [transcriptDelta(text)]
    message appends [text] unchanged to the current line and touches
    nothing else; a [turnComplete] message empties the current line and
    appends its trimmed text at the end of the finalized sequence when
    that text is not empty, and leaves the sequence alone otherwise.  The
    trimmed text is the current line without a prefix and a suffix of white
    space, and it neither starts nor ends with white space.  The deltas
    "He" and "llo" followed by [turnComplete], from an empty current line,
    add exactly the entry "Hello" and leave the current line empty; so do
    they when surrounded by white space, of which the inner part is kept
    and the outer part dropped at the turn boundary only. *)
Theorem assembler_delta_then_turnComplete :
  forall (earlier : list LiveServerMessage) (st0 : AppState.t) (text : jsstring),
    let st := assemble earlier st0 in
    assemble (earlier ++ [transcriptDelta text]) st0 =
      mk (isCapturing st) (transcripts st) (currentTranscript st ++ text)
         (error st)
    /\ assemble (earlier ++ [turnCompleteMsg]) st0 =
      mk (isCapturing st)
         (match trim (currentTranscript st) with
          | [] => transcripts st
          | line => transcripts st ++ [line]
          end)
         [] (error st)
    /\ (forall capturing history err,
          assemble [transcriptDelta (lit "He"); transcriptDelta (lit "llo");
                    turnCompleteMsg]
                   (mk capturing history [] err) =
          mk capturing (history ++ [lit "Hello"]) [] err)
    /\ assemble [transcriptDelta (lit "He"); transcriptDelta (lit "llo");
                 turnCompleteMsg] AppState.initial =
       mk false [lit "Hello"] [] None
    /\ (exists before line after,
          currentTranscript st = before ++ line ++ after
          /\ all_whitespace before = true /\ all_whitespace after = true
          /\ match line with [] => True | c :: _ => isWhiteSpace c = false end
          /\ match rev line with [] => True | c :: _ => isWhiteSpace c = false end
          /\ assemble (earlier ++ [turnCompleteMsg]) st0 =
             mk (isCapturing st)
                (match line with
                 | [] => transcripts st
                 | _ :: _ => transcripts st ++ [line]
                 end)
                [] (error st))
    /\ assemble [transcriptDelta (lit "  He"); transcriptDelta (lit "llo ");
                 turnCompleteMsg] AppState.initial =
       mk false [lit "Hello"] [] None
    /\ assemble [transcriptDelta (lit " The quick "); transcriptDelta (lit " fox ");
                 turnCompleteMsg; transcriptDelta (lit " next ")]
                AppState.initial =
       mk false [lit "The quick  fox"] (lit " next ") None
    /\ assemble [transcriptDelta ([9; 160; 65279] ++ lit "Hi" ++ [32]);
                 transcriptDelta (lit "there" ++ [10; 13; 8232; 12288]);
                 turnCompleteMsg]
                (mk true [lit "Hello"] [] None) =
       mk true [lit "Hello"; lit "Hi there"] [] None
    /\ assemble [transcriptDelta [32; 9; 10]; turnCompleteMsg;
                 transcriptDelta [32]]
                (mk true [lit "Hello"] [] None) =
       mk true [lit "Hello"] [32] None.
Proof.
  intros earlier st0 text st.
  rewrite !assemble_app. fold st. simpl assemble at 1 2 3.
  change (assemble [turnCompleteMsg] st) with (onmessage turnCompleteMsg st).
  change (assemble [transcriptDelta text] st)
    with (onmessage (transcriptDelta text) st).
  rewrite onmessage_delta, onmessage_turnComplete.
  split; [reflexivity|]. split; [reflexivity|].
  split; [reflexivity|]. split; [reflexivity|].
  split; [|repeat split].
  destruct (trim_split (currentTranscript st)) as (l & r & E & Hl & Hr & Hh & Ht).
  exists l, (trim (currentTranscript st)), r.
  repeat split; try assumption.
  destruct (trim (currentTranscript st)); reflexivity.
Qed.

(** C3.  A [turnComplete] that finds the current line empty or made of
    white space only adds no entry: the finalized sequence is unchanged and
    the current line becomes empty.  A second [turnComplete] right after a
    first one changes nothing at all. *)
Theorem turnComplete_on_blank_line :
  forall st : AppState.t,
    (all_whitespace (currentTranscript st) = true ->
     onmessage turnCompleteMsg st =
       mk (isCapturing st) (transcripts st) [] (error st))
    /\ onmessage turnCompleteMsg (onmessage turnCompleteMsg st) =
       onmessage turnCompleteMsg st
    /\ (currentTranscript st = [] -> onmessage turnCompleteMsg st = st).
Proof.
  intros st. repeat split.
  - intros Hb. rewrite onmessage_turnComplete.
    apply trim_blank in Hb. now rewrite Hb.
  - now rewrite !onmessage_turnComplete.
  - intros Hc. rewrite onmessage_turnComplete, Hc.
    destruct st; simpl in *; subst; reflexivity.
Qed.

Lemma turnComplete_on_blank_line_witness :
  onmessage turnCompleteMsg (mk true [lit "Hello"] (lit "  ") None) =
  mk true [lit "Hello"] [] None.
Proof.
  apply (proj1 (turnComplete_on_blank_line (mk true [lit "Hello"] (lit "  ") None))).
  reflexivity.
Defined.

(** C4.  A transcription payload whose [text] field is absent is not
    ignored: the callback appends the nine characters "undefined" to the
    current line.  The callback does not throw on it, and it leaves the
    finalized sequence alone. *)
Theorem onmessage_text_absent :
  forall st : AppState.t,
    onmessage transcriptionWithoutText st =
      mk (isCapturing st) (transcripts st)
         (currentTranscript st ++ lit "undefined") (error st)
    /\ currentTranscript (onmessage transcriptionWithoutText st)
       <> currentTranscript st
    /\ onmessage transcriptionWithoutText AppState.initial =
       mk false [] (lit "undefined") None.
Proof.
  intros st. repeat split.
  intros H. simpl in H.
  apply (f_equal (@List.length Z)) in H.
  rewrite length_app in H. simpl in H. lia.
Qed.

(** The absent fields that the callback does guard against. *)
Lemma onmessage_guarded_fields (st : AppState.t) :
  onmessage emptyMessage st = st
  /\ onmessage {| serverContent :=
                    Some {| inputTranscription := None; turnComplete := None |} |}
               st = st
  /\ onmessage {| serverContent :=
                    Some {| inputTranscription := None;
                            turnComplete := Some false |} |}
               st = st.
Proof. repeat split. Qed.

End AssemblerFacts.

(* ================================================================== *)
(** ** The PCM encoder *)

Module EncoderFacts.
Import JSString Encoder.

(** *** Conversion to 16 bits *)

Lemma ToInt16_range (x : number) : is_int16 (ToInt16 x).
Proof.
  unfold is_int16, ToInt16. destruct x as [| |q]; try lia.
  cbv zeta.
  pose proof (Z.mod_pos_bound (truncate q) 65536 ltac:(lia)).
  destruct (_ >=? 32768) eqn:E; lia.
Qed.

Lemma ToInt16_congruent (q : Q) :
  (ToInt16 (Finite q) - truncate q) mod 65536 = 0.
Proof.
  unfold ToInt16. cbv zeta.
  destruct (_ >=? 32768); Z.div_mod_to_equations; lia.
Qed.

Lemma ToInt16_exact (q : Q) :
  is_int16 (truncate q) -> ToInt16 (Finite q) = truncate q.
Proof.
  unfold is_int16, ToInt16. intros H. cbv zeta.
  destruct (_ >=? 32768) eqn:E; Z.div_mod_to_equations; lia.
Qed.

(** [truncate] drops the fractional part: the result lies between zero and
    the argument, less than one away from it. *)
Lemma truncate_nonneg (q : Q) :
  (0 <= q)%Q ->
  (inject_Z (truncate q) <= q)%Q /\ (q < inject_Z (truncate q) + 1)%Q
  /\ 0 <= truncate q.
Proof.
  destruct q as [n d]. unfold truncate, Qle, Qlt. simpl.
  intros Hn. rewrite Z.mul_1_r in *.
  pose proof (Z.quot_rem' n (Z.pos d)) as E.
  pose proof (Z.rem_bound_pos n (Z.pos d) ltac:(lia) ltac:(lia)) as B.
  pose proof (Z.quot_pos n (Z.pos d) ltac:(lia) ltac:(lia)).
  nia.
Qed.

Lemma truncate_nonpos (q : Q) :
  (q <= 0)%Q ->
  (q <= inject_Z (truncate q))%Q /\ (inject_Z (truncate q) - 1 < q)%Q
  /\ truncate q <= 0.
Proof.
  destruct q as [n d]. unfold truncate, Qle, Qlt. simpl.
  intros Hn. rewrite ?Z.mul_1_r in *.
  pose proof (Z.quot_rem' n (Z.pos d)) as E.
  pose proof (Z.rem_bound_pos_neg n (Z.pos d) ltac:(lia) ltac:(lia)) as B.
  assert (Z.quot n (Z.pos d) <= 0).
  { rewrite <- (Z.opp_involutive n), Z.quot_opp_l by lia.
    pose proof (Z.quot_pos (- n) (Z.pos d) ltac:(lia) ltac:(lia)). lia. }
  nia.
Qed.

(** *** Base64 *)

(** Case analysis on every integer comparison of the goal. *)
Ltac case_comparisons :=
  repeat match goal with
  | |- context [?a <? ?b] => destruct (Z.ltb_spec a b)
  | |- context [?a <=? ?b] => destruct (Z.leb_spec a b)
  | |- context [?a =? ?b] => destruct (Z.eqb_spec a b)
  end.

Lemma b64val_b64char (n : Z) : 0 <= n < 64 -> b64val (b64char n) = Some n.
Proof.
  intros H. unfold b64char, b64val.
  case_comparisons; cbn [andb]; try lia; try (f_equal; lia).
Qed.

Lemma b64char_not_pad (n : Z) : 0 <= n < 64 -> (b64char n =? pad) = false.
Proof.
  intros H. unfold b64char, pad. apply Z.eqb_neq.
  case_comparisons; lia.
Qed.

Lemma sextets (a b c : Z) :
  is_byte a -> is_byte b -> is_byte c ->
  0 <= a / 4 < 64 /\ 0 <= (a mod 4) * 16 + b / 16 < 64
  /\ 0 <= (b mod 16) * 4 + c / 64 < 64 /\ 0 <= c mod 64 < 64
  /\ 0 <= (a mod 4) * 16 < 64 /\ 0 <= (b mod 16) * 4 < 64.
Proof. unfold is_byte. intros. Z.div_mod_to_equations. lia. Qed.

Lemma group3 (a b c : Z) :
  is_byte a -> is_byte b -> is_byte c ->
  a / 4 * 4 + ((a mod 4) * 16 + b / 16) / 16 = a
  /\ (((a mod 4) * 16 + b / 16) mod 16) * 16 + ((b mod 16) * 4 + c / 64) / 4 = b
  /\ (((b mod 16) * 4 + c / 64) mod 4) * 64 + c mod 64 = c.
Proof. unfold is_byte. intros. Z.div_mod_to_equations. lia. Qed.

Lemma base64_decode_b64groups_aux (n : nat) :
  forall bs, (List.length bs <= n)%nat -> Forall is_byte bs ->
             base64_decode (b64groups bs) = Some bs.
Proof.
  induction n as [|n IH]; intros bs Hlen Hb.
  - destruct bs; [reflexivity|simpl in Hlen; lia].
  - destruct bs as [|a [|b [|c rest]]].
    + reflexivity.
    + inversion Hb as [|? ? Ha _]; subst.
      destruct (sextets a 0 0 Ha) as (S1 & _ & _ & _ & S2 & _); [unfold is_byte; lia..|].
      cbn [b64groups base64_decode].
      rewrite (b64val_b64char _ S1), (b64val_b64char _ S2). cbn [bind_opt].
      rewrite Z.eqb_refl.
      destruct (group3 a 0 0) as (E & _); [assumption|unfold is_byte; lia..|].
      change (0 / 16) with 0 in E. rewrite Z.add_0_r in E.
      now rewrite E.
    + inversion Hb as [|? ? Ha Hb']; subst. inversion Hb' as [|? ? Hb0 _]; subst.
      destruct (sextets a b 0 Ha Hb0) as (S1 & S2 & _ & _ & _ & S3); [unfold is_byte; lia|].
      cbn [b64groups base64_decode].
      rewrite (b64val_b64char _ S1), (b64val_b64char _ S2). cbn [bind_opt].
      rewrite Z.eqb_refl, (b64char_not_pad _ S3), (b64val_b64char _ S3). cbn [bind_opt].
      destruct (group3 a b 0) as (E1 & E2 & _); [assumption..|unfold is_byte; lia|].
      change (0 / 64) with 0 in E2. rewrite Z.add_0_r in E2.
      now rewrite E1, E2.
    + inversion Hb as [|? ? Ha Hb']; subst. inversion Hb' as [|? ? Hb0 Hb'']; subst.
      inversion Hb'' as [|? ? Hc Hr]; subst.
      destruct (sextets a b c Ha Hb0 Hc) as (S1 & S2 & S3 & S4 & _ & _).
      cbn [b64groups base64_decode].
      rewrite (b64val_b64char _ S1), (b64val_b64char _ S2). cbn [bind_opt].
      rewrite (b64char_not_pad _ S4), (b64val_b64char _ S3), (b64val_b64char _ S4).
      cbn [bind_opt].
      rewrite IH; [|simpl in Hlen; lia|assumption]. cbn [bind_opt].
      destruct (group3 a b c Ha Hb0 Hc) as (E1 & E2 & E3).
      now rewrite E1, E2, E3.
Qed.

(** *** Bytes of the buffer, and the text made of them *)

Lemma int16_bytes_are_bytes (v : Z) : Forall is_byte (int16_bytes v).
Proof.
  unfold int16_bytes, is_byte.
  repeat constructor; Z.div_mod_to_equations; lia.
Qed.

Lemma buffer_bytes_are_bytes (int16 : list Z) : Forall is_byte (buffer_bytes int16).
Proof.
  unfold buffer_bytes. induction int16 as [|v l IH]; cbn [flat_map].
  - constructor.
  - apply Forall_app. split; [apply int16_bytes_are_bytes|exact IH].
Qed.

Lemma buffer_bytes_length (int16 : list Z) :
  List.length (buffer_bytes int16) = (2 * List.length int16)%nat.
Proof.
  unfold buffer_bytes. induction int16 as [|v l IH]; [reflexivity|].
  cbn [flat_map]. rewrite length_app, IH. simpl. lia.
Qed.

Lemma int16_of_int16_bytes (v : Z) :
  is_int16 v -> int16_of_bytes (v mod 256) ((v / 256) mod 256) = v.
Proof.
  unfold is_int16, int16_of_bytes. intros H. cbv zeta.
  destruct (_ >=? 32768) eqn:E; Z.div_mod_to_equations; lia.
Qed.

Lemma int16_le_samples_buffer_bytes (int16 : list Z) :
  Forall is_int16 int16 -> int16_le_samples (buffer_bytes int16) = Some int16.
Proof.
  unfold buffer_bytes.
  induction 1 as [|v l Hv _ IH]; [reflexivity|].
  cbn [flat_map int16_bytes app int16_le_samples].
  rewrite IH. cbn [bind_opt]. now rewrite int16_of_int16_bytes.
Qed.

Lemma binary_string_of_bytes (bytes acc : list Z) :
  Forall is_byte bytes ->
  fold_left (fun binary b => binary ++ [fromCharCode b]) bytes acc = acc ++ bytes.
Proof.
  intros H. revert acc. induction H as [|b l Hb _ IH]; intros acc; simpl.
  - now rewrite app_nil_r.
  - rewrite IH, <- app_assoc. simpl. f_equal. f_equal.
    unfold fromCharCode, is_byte in *. rewrite Z.mod_small; lia.
Qed.

Lemma btoa_of_bytes (s : jsstring) :
  Forall is_byte s -> btoa s = Some (b64groups s).
Proof.
  intros H. unfold btoa.
  replace (forallb _ s) with true; [reflexivity|].
  symmetry. apply forallb_forall. intros c Hc.
  rewrite Forall_forall in H. specialize (H c Hc). unfold is_byte in H.
  apply andb_true_iff. split; apply Z.leb_le; lia.
Qed.

Lemma encode_of_bytes (bytes : list Z) :
  Forall is_byte bytes -> encode bytes = Some (b64groups bytes).
Proof.
  intros H. unfold encode. rewrite binary_string_of_bytes by assumption.
  now apply btoa_of_bytes.
Qed.

Lemma sample16_range (x : number) : is_int16 (sample16 x).
Proof. apply ToInt16_range. Qed.

Lemma sample16_negative (q : Q) :
  (q < 0)%Q -> sample16 (Finite q) = ToInt16 (Finite (q * 32768)).
Proof.
  intros H. unfold sample16, lt.
  destruct (q ?= 0)%Q eqn:E; try reflexivity.
  - apply Qeq_alt in E. exfalso. lra.
  - apply Qgt_alt in E. exfalso. lra.
Qed.

Lemma sample16_nonnegative (q : Q) :
  (0 <= q)%Q -> sample16 (Finite q) = ToInt16 (Finite (q * 32767)).
Proof.
  intros H. unfold sample16, lt.
  destruct (q ?= 0)%Q eqn:E; try reflexivity.
  apply Qlt_alt in E. exfalso. lra.
Qed.

Lemma sample16_not_finite :
  sample16 NaN = 0 /\ forall s, sample16 (Infinity s) = 0.
Proof. split; [reflexivity|]. intros []; reflexivity. Qed.

Lemma Qneg_bool_spec (q : Q) : Qneg_bool q = true <-> (q < 0)%Q.
Proof.
  unfold Qneg_bool, Qlt. simpl. rewrite Z.ltb_lt. lia.
Qed.

Lemma inject_Z_le (a b : Z) : (inject_Z a <= inject_Z b)%Q <-> a <= b.
Proof. unfold Qle. simpl. lia. Qed.

Lemma roundtrip_negative (q : Q) :
  (-1 <= q)%Q -> (q < 0)%Q ->
  (Qabs (decode_sample (sample16 (Finite q)) - q) < 1 / 32768)%Q.
Proof.
  intros Hlo Hneg.
  rewrite sample16_negative by assumption.
  destruct (truncate_nonpos (q * 32768)) as (T1 & T2 & T3); [lra|].
  assert (Hr : is_int16 (truncate (q * 32768))).
  { split; [|lia]. apply inject_Z_le. simpl inject_Z at 1. 
    change (inject_Z (-32768)) with (-32768 # 1)%Q. lra. }
  rewrite ToInt16_exact by assumption.
  apply Qabs_Qlt_condition. unfold decode_sample, Qdiv.
  change (/ 32768)%Q with (1 # 32768)%Q. change (/ 32767)%Q with (1 # 32767)%Q.
  destruct (Z.ltb_spec (truncate (q * 32768)) 0) as [Hl|Hl].
  - clear Hr Hl T3. revert T1 T2.
    generalize (inject_Z (truncate (q * 32768))). intros t T1 T2. split; lra.
  - replace (truncate (q * 32768)) with 0 in * by lia.
    change (inject_Z 0) with 0%Q in *. split; lra.
Qed.

Lemma roundtrip_nonnegative (q : Q) :
  (0 <= q)%Q -> (q < 1)%Q ->
  (Qabs (decode_sample (sample16 (Finite q)) - q) < 1 / 32767)%Q.
Proof.
  intros Hlo Hhi.
  rewrite sample16_nonnegative by assumption.
  destruct (truncate_nonneg (q * 32767)) as (T1 & T2 & T3); [lra|].
  assert (Hr : is_int16 (truncate (q * 32767))).
  { split; [lia|]. apply inject_Z_le.
    change (inject_Z 32767) with (32767 # 1)%Q. lra. }
  rewrite ToInt16_exact by assumption.
  apply Qabs_Qlt_condition. unfold decode_sample, Qdiv.
  change (/ 32767)%Q with (1 # 32767)%Q.
  destruct (Z.ltb_spec (truncate (q * 32767)) 0) as [Hl|Hl]; [lia|].
  clear Hr Hl T3. revert T1 T2.
  generalize (inject_Z (truncate (q * 32767))). intros t T1 T2. split; lra.
Qed.

Lemma base64_decode_b64groups (bytes : list Z) :
  Forall is_byte bytes -> base64_decode (b64groups bytes) = Some bytes.
Proof. apply (base64_decode_b64groups_aux (List.length bytes)). lia. Qed.

Lemma b64groups_length_aux (n : nat) :
  forall s, (List.length s <= n)%nat ->
            List.length (b64groups s) = (4 * ((List.length s + 2) / 3))%nat.
Proof.
  induction n as [|n IH]; intros s Hlen.
  - destruct s; [reflexivity|simpl in Hlen; lia].
  - destruct s as [|a [|b [|c rest]]]; try reflexivity.
    cbn [b64groups List.length].
    rewrite IH by (simpl in Hlen; lia).
    replace (S (S (S (List.length rest))) + 2)%nat
      with (1 * 3 + (List.length rest + 2))%nat by lia.
    rewrite Nat.div_add_l by lia. lia.
Qed.

Lemma b64groups_length (s : jsstring) :
  List.length (b64groups s) = (4 * ((List.length s + 2) / 3))%nat.
Proof. apply (b64groups_length_aux (List.length s)). lia. Qed.

(** The binary64 products of the source are exact at binary32 inputs: the
    largest significand just below one, of either sign, the smallest
    subnormal, the binary32 value nearest to one third, and one. *)
Example binary64_products_exact :
  forallb (fun '(m, e, k) => product_is_exact m e k)
    [ (16777215, -24, 32767); (-16777215, -24, 32768); (1, -149, 32767);
      (-1, -149, 32768); (11184811, -25, 32767); (-11184811, -25, 32768);
      (1, 0, 32767); (-1, 0, 32768); (16777215, 104, 32767) ] = true.
Proof. vm_compute. reflexivity. Qed.

(** The encoder on known values: halves are truncated toward zero, the
    bounds map to the extreme 16-bit values, out-of-range input wraps, and
    the samples 1.0 and -1.0 give the bytes FF 7F 00 80, in base64
    [/38AgA==]. *)
Example sample16_values :
  map sample16 [Finite (1 # 2); Finite (-1 # 2); Finite 1; Finite (-1);
                Finite 2; Finite (-2); Finite (3 # 2); NaN; Infinity true]
  = [16383; -16384; 32767; -32768; -2; 0; -16386; 0; 0].
Proof. reflexivity. Qed.

Example createBlob_value :
  createBlob [Finite 1; Finite (-1)] =
  Some {| data := lit "/38AgA=="; mimeType := lit "audio/pcm;rate=16000" |}.
Proof. reflexivity. Qed.

(** *** The strict reading of the text *)

Lemma b64val_inv (c v : Z) :
  b64val c = Some v -> 0 <= v < 64 /\ b64char v = c.
Proof.
  unfold b64val.
  repeat match goal with
  | |- context [?a <=? ?b] => destruct (Z.leb_spec a b)
  | |- context [?a =? ?b] => destruct (Z.eqb_spec a b)
  end; cbn [andb]; intros E; try discriminate; injection E as <-;
  (split; [lia|]); unfold b64char; case_comparisons; lia.
Qed.

Lemma strict_decode_b64groups_aux (n : nat) :
  forall bs, (List.length bs <= n)%nat -> Forall is_byte bs ->
             base64_decode_strict (b64groups bs) = Some bs.
Proof.
  induction n as [|n IH]; intros bs Hlen Hb.
  - destruct bs; [reflexivity|simpl in Hlen; lia].
  - destruct bs as [|a [|b [|c rest]]].
    + reflexivity.
    + inversion Hb as [|? ? Ha _]; subst.
      destruct (sextets a 0 0 Ha) as (S1 & _ & _ & _ & S2 & _); [unfold is_byte; lia..|].
      cbn [b64groups base64_decode_strict].
      rewrite (b64val_b64char _ S1), (b64val_b64char _ S2). cbn [bind_opt].
      rewrite Z.eqb_refl.
      replace (a mod 4 * 16 mod 16 =? 0) with true
        by (symmetry; apply Z.eqb_eq; unfold is_byte in Ha; Z.div_mod_to_equations; lia).
      destruct (group3 a 0 0) as (E & _); [assumption|unfold is_byte; lia..|].
      change (0 / 16) with 0 in E. rewrite Z.add_0_r in E.
      now rewrite E.
    + inversion Hb as [|? ? Ha Hb']; subst. inversion Hb' as [|? ? Hb0 _]; subst.
      destruct (sextets a b 0 Ha Hb0) as (S1 & S2 & _ & _ & _ & S3); [unfold is_byte; lia|].
      cbn [b64groups base64_decode_strict].
      rewrite (b64val_b64char _ S1), (b64val_b64char _ S2). cbn [bind_opt].
      rewrite Z.eqb_refl, (b64char_not_pad _ S3), (b64val_b64char _ S3). cbn [bind_opt].
      replace (b mod 16 * 4 mod 4 =? 0) with true
        by (symmetry; apply Z.eqb_eq; unfold is_byte in Hb0; Z.div_mod_to_equations; lia).
      destruct (group3 a b 0) as (E1 & E2 & _); [assumption..|unfold is_byte; lia|].
      change (0 / 64) with 0 in E2. rewrite Z.add_0_r in E2.
      now rewrite E1, E2.
    + inversion Hb as [|? ? Ha Hb']; subst. inversion Hb' as [|? ? Hb0 Hb'']; subst.
      inversion Hb'' as [|? ? Hc Hr]; subst.
      destruct (sextets a b c Ha Hb0 Hc) as (S1 & S2 & S3 & S4 & _ & _).
      cbn [b64groups base64_decode_strict].
      rewrite (b64val_b64char _ S1), (b64val_b64char _ S2). cbn [bind_opt].
      rewrite (b64char_not_pad _ S4), (b64val_b64char _ S3), (b64val_b64char _ S4).
      cbn [bind_opt].
      rewrite IH; [|simpl in Hlen; lia|assumption]. cbn [bind_opt].
      destruct (group3 a b c Ha Hb0 Hc) as (E1 & E2 & E3).
      now rewrite E1, E2, E3.
Qed.

Lemma strict_decode_b64groups (bs : list Z) :
  Forall is_byte bs -> base64_decode_strict (b64groups bs) = Some bs.
Proof. apply (strict_decode_b64groups_aux (List.length bs)). lia. Qed.

(** The digits of a group, recovered from the bytes they decode to. *)
Lemma regroup3 (v1 v2 v3 v4 : Z) :
  0 <= v1 < 64 -> 0 <= v2 < 64 -> 0 <= v3 < 64 -> 0 <= v4 < 64 ->
  let a := v1 * 4 + v2 / 16 in
  let b := (v2 mod 16) * 16 + v3 / 4 in
  let c := (v3 mod 4) * 64 + v4 in
  is_byte a /\ is_byte b /\ is_byte c
  /\ a / 4 = v1 /\ (a mod 4) * 16 + b / 16 = v2
  /\ (b mod 16) * 4 + c / 64 = v3 /\ c mod 64 = v4.
Proof. unfold is_byte. intros. cbv zeta. Z.div_mod_to_equations. lia. Qed.

Lemma regroup2 (v1 v2 v3 : Z) :
  0 <= v1 < 64 -> 0 <= v2 < 64 -> 0 <= v3 < 64 -> v3 mod 4 = 0 ->
  let a := v1 * 4 + v2 / 16 in
  let b := (v2 mod 16) * 16 + v3 / 4 in
  is_byte a /\ is_byte b
  /\ a / 4 = v1 /\ (a mod 4) * 16 + b / 16 = v2 /\ (b mod 16) * 4 = v3.
Proof. unfold is_byte. intros. cbv zeta. Z.div_mod_to_equations. lia. Qed.

Lemma regroup1 (v1 v2 : Z) :
  0 <= v1 < 64 -> 0 <= v2 < 64 -> v2 mod 16 = 0 ->
  let a := v1 * 4 + v2 / 16 in
  is_byte a /\ a / 4 = v1 /\ (a mod 4) * 16 = v2.
Proof. unfold is_byte. intros. cbv zeta. Z.div_mod_to_equations. lia. Qed.

(** A text that reads strictly as some bytes is the text [b64groups] makes
    of them. *)
Lemma strict_decode_unique_aux (n : nat) :
  forall s bs, (List.length s <= n)%nat ->
               base64_decode_strict s = Some bs ->
               s = b64groups bs /\ Forall is_byte bs.
Proof.
  induction n as [|n IH]; intros s bs Hlen H.
  - destruct s; [|simpl in Hlen; lia]. injection H as <-. split; [reflexivity|constructor].
  - destruct s as [|c1 [|c2 [|c3 [|c4 rest]]]]; try discriminate.
    + injection H as <-. split; [reflexivity|constructor].
    + cbn [base64_decode_strict] in H.
      destruct (b64val c1) as [v1|] eqn:E1; [|discriminate].
      destruct (b64val c2) as [v2|] eqn:E2; [|discriminate].
      cbn [bind_opt] in H.
      apply b64val_inv in E1. destruct E1 as [R1 <-].
      apply b64val_inv in E2. destruct E2 as [R2 <-].
      destruct (Z.eqb_spec c4 pad) as [->|N4].
      * destruct rest; [|discriminate].
        destruct (Z.eqb_spec c3 pad) as [->|N3].
        -- destruct (Z.eqb_spec (v2 mod 16) 0) as [Z2|]; [|discriminate].
           injection H as <-.
           destruct (regroup1 v1 v2 R1 R2 Z2) as (B & G1 & G2).
           cbv zeta in B, G1, G2. cbn [b64groups]. rewrite G1, G2.
           split; [reflexivity|repeat (apply Forall_cons; [assumption|]); first [assumption|apply Forall_nil]].
        -- destruct (b64val c3) as [v3|] eqn:E3; [|discriminate].
           cbn [bind_opt] in H.
           apply b64val_inv in E3. destruct E3 as [R3 <-].
           destruct (Z.eqb_spec (v3 mod 4) 0) as [Z3|]; [|discriminate].
           injection H as <-.
           destruct (regroup2 v1 v2 v3 R1 R2 R3 Z3) as (Ba & Bb & G1 & G2 & G3).
           cbv zeta in Ba, Bb, G1, G2, G3. cbn [b64groups]. rewrite G1, G2, G3.
           split; [reflexivity|repeat (apply Forall_cons; [assumption|]); first [assumption|apply Forall_nil]].
      * destruct (b64val c3) as [v3|] eqn:E3; [|discriminate].
        destruct (b64val c4) as [v4|] eqn:E4; [|discriminate].
        destruct (base64_decode_strict rest) as [tl|] eqn:Er; [|discriminate].
        cbn [bind_opt] in H. injection H as <-.
        apply b64val_inv in E3. destruct E3 as [R3 <-].
        apply b64val_inv in E4. destruct E4 as [R4 <-].
        destruct (IH rest tl) as [-> Ft]; [simpl in Hlen; lia|assumption|].
        destruct (regroup3 v1 v2 v3 v4 R1 R2 R3 R4)
          as (Ba & Bb & Bc & G1 & G2 & G3 & G4).
        cbv zeta in Ba, Bb, Bc, G1, G2, G3, G4.
        cbn [b64groups]. rewrite G1, G2, G3, G4.
        split; [reflexivity|repeat (apply Forall_cons; [assumption|]); first [assumption|apply Forall_nil]].
Qed.

Lemma strict_decode_unique (s : jsstring) (bs : list Z) :
  base64_decode_strict s = Some bs -> s = b64groups bs.
Proof.
  intros H. now destruct (strict_decode_unique_aux (List.length s) s bs (le_n _) H).
Qed.

Lemma int16_bytes_value (v : Z) :
  is_int16 v ->
  exists lo hi,
    int16_bytes v = [lo; hi] /\ is_byte lo /\ is_byte hi
    /\ lo + 256 * hi = if v <? 0 then v + 65536 else v.
Proof.
  unfold is_int16, is_byte, int16_bytes. intros H.
  exists (v mod 256), ((v / 256) mod 256). split; [reflexivity|].
  destruct (Z.ltb_spec v 0); Z.div_mod_to_equations; lia.
Qed.

(** The integer that the scaled sample truncates to, told by bounds. *)
Lemma sample16_negative_bounds (q : Q) :
  (q < 0)%Q ->
  exists t : Z,
    (q * 32768 <= inject_Z t)%Q /\ (inject_Z t < q * 32768 + 1)%Q
    /\ (sample16 (Finite q) - t) mod 65536 = 0
    /\ ((-1 <= q)%Q -> sample16 (Finite q) = t).
Proof.
  intros Hq. exists (truncate (q * 32768)).
  destruct (truncate_nonpos (q * 32768)) as (T1 & T2 & T3); [lra|].
  rewrite sample16_negative by assumption.
  repeat split.
  - exact T1.
  - revert T2. generalize (inject_Z (truncate (q * 32768))). intros t T2. lra.
  - apply ToInt16_congruent.
  - intros Hlo. apply ToInt16_exact. split; [|lia].
    apply inject_Z_le. change (inject_Z (-32768)) with (-32768 # 1)%Q. lra.
Qed.

Lemma sample16_nonnegative_bounds (q : Q) :
  (0 <= q)%Q ->
  exists t : Z,
    (inject_Z t <= q * 32767)%Q /\ (q * 32767 < inject_Z t + 1)%Q
    /\ (sample16 (Finite q) - t) mod 65536 = 0
    /\ ((q <= 1)%Q -> sample16 (Finite q) = t).
Proof.
  intros Hq. exists (truncate (q * 32767)).
  destruct (truncate_nonneg (q * 32767)) as (T1 & T2 & T3); [lra|].
  rewrite sample16_nonnegative by assumption.
  repeat split.
  - exact T1.
  - exact T2.
  - apply ToInt16_congruent.
  - intros Hhi. apply ToInt16_exact. split; [lia|].
    apply inject_Z_le. change (inject_Z 32767) with (32767 # 1)%Q. lra.
Qed.

(** C2.  [createBlob] never throws and returns a chunk whose MIME
    descriptor is [audio/pcm;rate=16000] and whose payload is the base64
    text of the buffer's bytes: the text reads back, strictly, as these
    bytes, and it is the only text that does; the bytes, read two by two,
    low byte first, give back the 16-bit samples.  Each sample is a signed
    16-bit value: the input times 32768 when the input is negative, times
    32767 otherwise, with the fractional part dropped (the integer between
    zero and the product, less than one away from it) and the result
    reduced modulo 2^16 into the signed range; no reduction takes place for
    an input in [-1, 1].  The values at known inputs, the bytes of known
    samples and the text of known byte sequences are as expected.  The
    encoder is a function of the samples alone. *)
Theorem createBlob_chunk :
  forall samples : list number,
    let int16 := map sample16 samples in
    (exists payload,
        createBlob samples =
          Some {| data := payload; mimeType := lit "audio/pcm;rate=16000" |}
        /\ base64_decode payload = Some (buffer_bytes int16)
        /\ List.length payload
           = (4 * ((2 * List.length samples + 2) / 3))%nat
        /\ base64_decode_strict payload = Some (buffer_bytes int16)
        /\ (forall text,
              base64_decode_strict text = Some (buffer_bytes int16) ->
              text = payload))
    /\ int16_le_samples (buffer_bytes int16) = Some int16
    /\ Forall is_int16 int16
    /\ (forall q, (q < 0)%Q ->
          sample16 (Finite q) = ToInt16 (Finite (q * 32768))
          /\ ((-1 <= q)%Q -> sample16 (Finite q) = truncate (q * 32768)))
    /\ (forall q, (0 <= q)%Q ->
          sample16 (Finite q) = ToInt16 (Finite (q * 32767))
          /\ ((q <= 1)%Q -> sample16 (Finite q) = truncate (q * 32767)))
    /\ (forall q, (ToInt16 (Finite q) - truncate q) mod 65536 = 0)
    /\ sample16 NaN = 0 /\ (forall s, sample16 (Infinity s) = 0)
    /\ (forall q, (q < 0)%Q ->
          exists t : Z,
            (q * 32768 <= inject_Z t)%Q /\ (inject_Z t < q * 32768 + 1)%Q
            /\ (sample16 (Finite q) - t) mod 65536 = 0
            /\ ((-1 <= q)%Q -> sample16 (Finite q) = t))
    /\ (forall q, (0 <= q)%Q ->
          exists t : Z,
            (inject_Z t <= q * 32767)%Q /\ (q * 32767 < inject_Z t + 1)%Q
            /\ (sample16 (Finite q) - t) mod 65536 = 0
            /\ ((q <= 1)%Q -> sample16 (Finite q) = t))
    /\ (forall v, is_int16 v ->
          exists lo hi,
            int16_bytes v = [lo; hi] /\ is_byte lo /\ is_byte hi
            /\ lo + 256 * hi = if v <? 0 then v + 65536 else v)
    /\ map sample16
         [Finite (1 # 2); Finite (-1 # 2); Finite 1; Finite (-1);
          Finite (1 # 3); Finite (-1 # 3); Finite (1 # 32767);
          Finite (-1 # 32768); Finite (1 # 40000); Finite (-1 # 40000);
          Finite 2; Finite (-2); Finite (3 # 2); NaN; Infinity false;
          Infinity true]
       = [16383; -16384; 32767; -32768; 10922; -10922; 1; -1; 0; 0;
          -2; 0; -16386; 0; 0; 0]
    /\ buffer_bytes [32767; -32768; 1; -2] = [255; 127; 0; 128; 1; 0; 254; 255]
    /\ createBlob [Finite 1; Finite (-1)] =
         Some {| data := lit "/38AgA=="; mimeType := lit "audio/pcm;rate=16000" |}
    /\ map encode [lit ""; lit "f"; lit "fo"; lit "foo"; lit "foob";
                   lit "fooba"; lit "foobar"; [255; 127]; [251; 255; 190]]
       = map Some [lit ""; lit "Zg=="; lit "Zm8="; lit "Zm9v"; lit "Zm9vYg==";
                   lit "Zm9vYmE="; lit "Zm9vYmFy"; lit "/38="; lit "+/++"].
Proof.
  intros samples int16.
  assert (Hr : Forall is_int16 int16).
  { apply Forall_forall. intros v Hv. apply in_map_iff in Hv.
    destruct Hv as (x & <- & _). apply sample16_range. }
  pose proof (buffer_bytes_are_bytes int16) as Hbytes.
  split.
  { exists (b64groups (buffer_bytes int16)). repeat split.
    - unfold createBlob. fold int16. now rewrite (encode_of_bytes _ Hbytes).
    - now apply base64_decode_b64groups.
    - rewrite b64groups_length, buffer_bytes_length.
      unfold int16. now rewrite length_map.
    - now apply strict_decode_b64groups.
    - intros text. apply strict_decode_unique. }
  split; [now apply int16_le_samples_buffer_bytes|].
  split; [exact Hr|].
  split.
  { intros q Hq. split; [now apply sample16_negative|].
    intros Hlo. rewrite sample16_negative by assumption. apply ToInt16_exact.
    destruct (truncate_nonpos (q * 32768)) as (T1 & _ & T3); [lra|].
    split; [|lia]. apply inject_Z_le.
    change (inject_Z (-32768)) with (-32768 # 1)%Q. lra. }
  split.
  { intros q Hq. split; [now apply sample16_nonnegative|].
    intros Hhi. rewrite sample16_nonnegative by assumption. apply ToInt16_exact.
    destruct (truncate_nonneg (q * 32767)) as (T1 & _ & T3); [lra|].
    split; [lia|]. apply inject_Z_le.
    change (inject_Z 32767) with (32767 # 1)%Q. lra. }
  split; [apply ToInt16_congruent|].
  split; [reflexivity|].
  split; [intros []; reflexivity|].
  split; [apply sample16_negative_bounds|].
  split; [apply sample16_nonnegative_bounds|].
  split; [apply int16_bytes_value|].
  repeat split.
Qed.

Lemma createBlob_chunk_witness :
  sample16 (Finite (-1 # 2)) = -16384
  /\ sample16 (Finite (1 # 2)) = 16383.
Proof.
  destruct (createBlob_chunk [Finite (-1 # 2); Finite (1 # 2)])
    as (_ & _ & _ & _ & _ & _ & _ & _ & Hneg & Hpos & _).
  split.
  - destruct (Hneg (-1 # 2)%Q) as (t & B1 & B2 & _ & E); [reflexivity|].
    rewrite E by (unfold Qle; simpl; lia).
    unfold Qle in B1. unfold Qlt in B2. simpl in B1, B2. lia.
  - destruct (Hpos (1 # 2)%Q) as (t & B1 & B2 & _ & E);
      [unfold Qle; simpl; lia|].
    rewrite E by (unfold Qle; simpl; lia).
    unfold Qle in B1. unfold Qlt in B2. simpl in B1, B2. lia.
Defined.

(** C8.  For every sample value in [-1, 1), dividing the encoder's 16-bit
    output by the scale that produced it (32768 for a negative sample,
    32767 otherwise) gives back the sample to within less than one
    quantization step, 1/32768 for a negative sample and 1/32767 otherwise.
    For the input 1.0 the output is 32767, the largest 16-bit value, stored
    as the bytes FF 7F. *)
Theorem encode_decode_within_one_step :
  (forall q : Q, (-1 <= q)%Q -> (q < 1)%Q ->
     (Qabs (decode_sample (sample16 (Finite q)) - q) < quantization_step q)%Q)
  /\ sample16 (Finite 1) = 32767
  /\ int16_bytes (sample16 (Finite 1)) = [255; 127].
Proof.
  split; [|split; reflexivity].
  intros q Hlo Hhi. unfold quantization_step.
  destruct (Qneg_bool q) eqn:E.
  - apply Qneg_bool_spec in E. now apply roundtrip_negative.
  - apply roundtrip_nonnegative; [|assumption].
    destruct (Qlt_le_dec q 0) as [H|H]; [|assumption].
    apply Qneg_bool_spec in H. congruence.
Qed.

Lemma encode_decode_within_one_step_witness :
  (Qabs (decode_sample (sample16 (Finite (-1))) - (-1))
   < quantization_step (-1))%Q.
Proof.
  apply (proj1 encode_decode_within_one_step (-1)%Q).
  - unfold Qle. simpl. lia.
  - reflexivity.
Defined.

End EncoderFacts.

(* ================================================================== *)
(** ** The capture manager *)

Module CaptureFacts.
Import JSString Capture.

(** Case analysis on what each ref of [w] holds, down to the state of the
    referenced context. *)
Ltac case_refs w :=
  let u := fresh "u" in
  let sp := fresh "sp" in
  let c := fresh "c" in
  let stream := fresh "stream" in
  let node := fresh "node" in
  let l := fresh "l" in
  destruct w as [u sp [[c []]|] [stream|] [node|] l].

(** *** What [stopCapture] logs *)

Lemma events_since_app (w w' : World) (es : list Event) :
  log w' = log w ++ es -> events_since w w' = es.
Proof.
  intros E. unfold events_since. rewrite E.
  rewrite skipn_app, skipn_all, Nat.sub_diag. reflexivity.
Qed.

Lemma count_app (kind : Event -> bool) (l1 l2 : list Event) :
  count kind (l1 ++ l2) = (count kind l1 + count kind l2)%nat.
Proof. unfold count. now rewrite filter_app, length_app. Qed.

Lemma no_SessionClose_in_track_stops (stream : MediaStream) :
  count is_SessionClose (track_stops stream) = 0%nat.
Proof.
  unfold track_stops, count. induction (tracks stream); simpl; auto.
Qed.

Lemma stop_teardown_log (w : World) :
  log (fst (stop_teardown w)) = log w ++ teardown_events w.
Proof.
  case_refs w;
    unfold stop_teardown, teardown_events; simpl;
    rewrite <- ?app_assoc, ?app_nil_r; reflexivity.
Qed.

Lemma stop_teardown_point (w : World) :
  snd (stop_teardown w) =
  match audioContextRef w with
  | Some ctx => match state ctx with closed => Returned | _ => AwaitingContextClose end
  | None => Returned
  end.
Proof. case_refs w; reflexivity. Qed.

Lemma no_SessionClose_in_teardown (w : World) :
  count is_SessionClose (teardown_events w) = 0%nat.
Proof.
  unfold teardown_events. rewrite !count_app, ?no_SessionClose_in_track_stops.
  destruct (streamRef w), (scriptProcessorRef w), (audioContextRef w) as [[c []]|];
    rewrite ?no_SessionClose_in_track_stops; reflexivity.
Qed.

Lemma stop_resume_session_log (settled : Completion Session) (w : World) :
  log (fst (stop_resume_session settled w)) =
  log w ++ session_events settled ++ teardown_events w.
Proof.
  unfold stop_resume_session. rewrite stop_teardown_log.
  destruct settled as [[id []]|e]; simpl; rewrite <- ?app_assoc; reflexivity.
Qed.

Lemma stop_resume_session_point (settled : Completion Session) (w : World) :
  snd (stop_resume_session settled w) = snd (stop_teardown w).
Proof.
  unfold stop_resume_session. rewrite !stop_teardown_point.
  destruct settled as [[id []]|e]; reflexivity.
Qed.

Lemma stop_resume_context_log (settled : Completion unit) (w : World) :
  log (fst (stop_resume_context settled w)) = log w.
Proof. destruct settled; reflexivity. Qed.

Lemma stop_enter_suspends (w : World) (p : SessionPromise) :
  sessionPromiseRef w = Some p ->
  stop_enter w = (update_ui (AppState.setIsCapturing false) w, AwaitingSession p).
Proof. unfold stop_enter. simpl. now intros ->. Qed.

(** [stopCapture], with its first [await] made explicit. *)
Lemma stopCapture_unfold (env : StopEnv) (w : World) :
  stopCapture env w =
  let w0 := update_ui (AppState.setIsCapturing false) w in
  let r :=
    match sessionPromiseRef w with
    | Some _ => stop_resume_session (session_settles env) w0
    | None => stop_teardown w0
    end in
  match snd r with
  | AwaitingContextClose => stop_resume_context (context_close_settles env) (fst r)
  | _ => r
  end.
Proof.
  unfold stopCapture, stop_enter.
  change (sessionPromiseRef (update_ui (AppState.setIsCapturing false) w))
    with (sessionPromiseRef w).
  destruct (sessionPromiseRef w) as [p|].
  - destruct (stop_resume_session _ _) as [w2 []]; reflexivity.
  - destruct (stop_teardown _) as [w2 [p| | |e]] eqn:E; try reflexivity.
    exfalso.
    pose proof (stop_teardown_point (update_ui (AppState.setIsCapturing false) w)) as P.
    rewrite E in P. simpl in P.
    destruct (audioContextRef w) as [[c []]|]; discriminate.
Qed.

(** The log of one whole invocation. *)
Lemma stopCapture_log (env : StopEnv) (w : World) :
  log (fst (stopCapture env w)) =
  log w
  ++ match sessionPromiseRef w with
     | Some _ => session_events (session_settles env)
     | None => []
     end
  ++ teardown_events w.
Proof.
  rewrite stopCapture_unfold. cbv zeta.
  set (w0 := update_ui (AppState.setIsCapturing false) w).
  set (r := match sessionPromiseRef w with Some _ => _ | None => _ end).
  assert (L : log (fst r) = log w ++ match sessionPromiseRef w with
     | Some _ => session_events (session_settles env)
     | None => []
     end ++ teardown_events w).
  { subst r. destruct (sessionPromiseRef w).
    - apply (stop_resume_session_log _ w0).
    - apply (stop_teardown_log w0). }
  rewrite <- L.
  destruct (snd r); try reflexivity. apply stop_resume_context_log.
Qed.

(** *** Where [stopCapture] leaves the component *)

Lemma stopCapture_never_started (u : AppState.t) (l : list Event) (env : StopEnv) :
  stopCapture env (mkWorld u None None None None l) =
  (mkWorld (AppState.setIsCapturing false u) None None None None l, Returned).
Proof. reflexivity. Qed.

(** The state in which a completed [stopCapture] leaves the component. *)
Lemma stopCapture_returned (env : StopEnv) (w w' : World) :
  stopCapture env w = (w', Returned) ->
  AppState.isCapturing (ui w') = false
  /\ sessionPromiseRef w' = None /\ streamRef w' = None
  /\ scriptProcessorRef w' = None
  /\ match audioContextRef w' with
     | Some ctx => state ctx = closed
     | None => True
     end.
Proof.
  destruct env as [[[sid []]|e] [[]|e']];
  destruct w as [u [p|] [[c []]|] [stream|] [node|] l];
    cbn; intros H; inversion H; subst; cbn; auto.
Qed.

Lemma stopCapture_after_stop (env : StopEnv) (w : World) :
  AppState.isCapturing (ui w) = false ->
  sessionPromiseRef w = None -> streamRef w = None ->
  scriptProcessorRef w = None ->
  match audioContextRef w with
  | Some ctx => state ctx = closed
  | None => True
  end ->
  stopCapture env w = (w, Returned).
Proof.
  destruct w as [[ic ts ct er] sp [[c st]|] sr pr l]; cbn;
    intros -> -> -> ->; [intros ->|intros _]; reflexivity.
Qed.

Lemma stopCapture_events (env : StopEnv) (w : World) :
  events_since w (fst (stopCapture env w)) =
  match sessionPromiseRef w with
  | Some _ => session_events (session_settles env)
  | None => []
  end ++ teardown_events w.
Proof. apply events_since_app, stopCapture_log. Qed.

(** C5, as the code has it.  One invocation of [stopCapture] makes its
    calls in this order: it closes the session the awaited promise resolved
    to, if a promise is referenced (logging the error if the promise was
    rejected or [close()] throws); then it stops every track of the
    referenced stream; then it disconnects the referenced processor; and
    last it closes the referenced context, unless that context is already
    closed.  After a start whose connection has opened these are, in order,
    the session's close, the track's stop, the processor's disconnect and
    the context's close. *)
Theorem stopCapture_teardown_order :
  forall (env : StopEnv) (w : World),
    events_since w (fst (stopCapture env w)) =
      match sessionPromiseRef w with
      | Some _ =>
          match session_settles env with
          | Normal session =>
              SessionClose (session_id session)
              :: (if close_throws session
                  then [ConsoleError "Error closing session:"] else [])
          | Throw _ => [ConsoleError "Error closing session:"]
          end
      | None => []
      end
      ++ match streamRef w with
         | Some stream =>
             map (fun track => TrackStop (track_id track)) (tracks stream)
         | None => []
         end
      ++ match scriptProcessorRef w with
         | Some node => [ProcessorDisconnect (node_id node)]
         | None => []
         end
      ++ match audioContextRef w with
         | Some ctx =>
             match state ctx with
             | closed => []
             | _ => [ContextClose (context_id ctx)]
             end
         | None => []
         end.
Proof. intros env w. apply stopCapture_events. Qed.

(** C5, as the specification words it, fails: after a successful start
    the session is closed first, not last. *)
Lemma stopCapture_session_not_last :
  events_since started (fst (stopCapture okStopEnv started)) =
    [SessionClose 1; TrackStop 1; ProcessorDisconnect 1; ContextClose 1]
  /\ session_closed_last
       (events_since started (fst (stopCapture okStopEnv started))) = false.
Proof. split; reflexivity. Qed.

(** Each resumption of a suspended stop on a fulfilled promise calls the
    session's [close()] once, first, whatever the state it resumes in. *)
Lemma stop_resume_closes_once (session : Session) (w : World) :
  exists rest,
    events_since w (fst (stop_resume_session (Normal session) w)) =
      SessionClose (session_id session) :: rest
    /\ count is_SessionClose rest = 0%nat.
Proof.
  exists ((if close_throws session
           then [ConsoleError "Error closing session:"] else [])
          ++ teardown_events w).
  split.
  - apply events_since_app. rewrite stop_resume_session_log. reflexivity.
  - rewrite count_app, no_SessionClose_in_teardown.
    destruct (close_throws session); reflexivity.
Qed.

Lemma resume_each_closes (session : Session) (n : nat) :
  forall w,
    exists es,
      log (Interleaving.run (repeat (Interleaving.StopResumeSession (Normal session)) n) w) = log w ++ es
      /\ count is_SessionClose es = n.
Proof.
  induction n as [|n IH]; intros w.
  - exists []. split; [simpl; now rewrite app_nil_r|reflexivity].
  - cbn [repeat Interleaving.run fold_left Interleaving.perform].
    destruct (IH (fst (stop_resume_session (Normal session) w))) as (es & L & C).
    unfold Interleaving.run in L. rewrite L, stop_resume_session_log.
    eexists. split; [rewrite <- !app_assoc; reflexivity|].
    rewrite !count_app, C, no_SessionClose_in_teardown.
    unfold session_events, count.
    destruct (close_throws session); simpl; lia.
Qed.

(** C7, as the code has it.  An invocation of [stopCapture] that finds a
    session promise suspends on it before it has made any call.  Once the
    promise has resolved to a session, the invocation calls that session's
    [close()] exactly once, as its first call, and forgets the promise; a
    [close()] that throws is logged and the teardown goes on, so that the
    invocation returns whenever the context's own close does.  The session
    is closed once by each invocation that resumes, in whatever state it
    resumes: once when a single stop is pending, [n] times when [n]
    invocations were suspended on the promise. *)
Theorem stopCapture_closes_session_once :
  forall (w : World) (p : SessionPromise) (session : Session)
         (closing : Completion unit),
    sessionPromiseRef w = Some p ->
    let env := {| session_settles := Normal session;
                  context_close_settles := closing |} in
    let suspended := fst (stop_enter w) in
    snd (stop_enter w) = AwaitingSession p
    /\ log suspended = log w
    /\ (exists rest,
          events_since w (fst (stopCapture env w)) =
            SessionClose (session_id session) :: rest
          /\ count is_SessionClose rest = 0%nat)
    /\ count is_SessionClose (events_since w (fst (stopCapture env w))) = 1%nat
    /\ sessionPromiseRef (fst (stopCapture env w)) = None
    /\ snd (stop_resume_session (Normal session) suspended)
       = snd (stop_teardown suspended)
    /\ (closing = Normal tt -> snd (stopCapture env w) = Returned)
    /\ (forall w2 : World,
          exists rest,
            events_since w2 (fst (stop_resume_session (Normal session) w2)) =
              SessionClose (session_id session) :: rest
            /\ count is_SessionClose rest = 0%nat)
    /\ (forall (n : nat) (w2 : World),
          count is_SessionClose
            (events_since w2
               (Interleaving.run (repeat (Interleaving.StopResumeSession (Normal session)) n) w2)) = n).
Proof.
  intros w p session closing Hp env suspended.
  assert (Ev : events_since w (fst (stopCapture env w)) =
               SessionClose (session_id session)
               :: (if close_throws session
                   then [ConsoleError "Error closing session:"] else [])
                  ++ teardown_events w).
  { rewrite stopCapture_events, Hp. reflexivity. }
  assert (Hrest : count is_SessionClose
                    ((if close_throws session
                      then [ConsoleError "Error closing session:"] else [])
                     ++ teardown_events w) = 0%nat).
  { rewrite count_app, no_SessionClose_in_teardown.
    destruct (close_throws session); reflexivity. }
  subst suspended. rewrite (stop_enter_suspends w p Hp). cbn [fst snd].
  split; [reflexivity|]. split; [reflexivity|].
  split; [eexists; split; [exact Ev|exact Hrest]|].
  split.
  { rewrite Ev. change (count is_SessionClose (?e :: ?l))
      with (S (count is_SessionClose l)).
    now rewrite Hrest. }
  split.
  { subst env. clear Ev Hrest.
    destruct session as [sid []], closing as [[]|e];
    destruct w as [u sp [[c []]|] [stream|] [node|] l];
      cbn in Hp; subst sp; reflexivity. }
  split; [apply stop_resume_session_point|].
  split.
  { intros ->. subst env. clear Ev Hrest.
    destruct session as [sid []];
    destruct w as [u sp [[c []]|] [stream|] [node|] l];
      cbn in Hp; subst sp; reflexivity. }
  split; [intros w2; apply stop_resume_closes_once|].
  intros n w2. destruct (resume_each_closes session n w2) as (es & L & C).
  now rewrite (events_since_app _ _ _ L).
Qed.

Lemma stopCapture_closes_session_once_witness :
  count is_SessionClose
    (events_since started (fst (stopCapture okStopEnv started))) = 1%nat.
Proof.
  apply (stopCapture_closes_session_once started okPromise okSession (Normal tt)).
  reflexivity.
Defined.

(** C7, as the specification words it, fails.  While the connection is
    being made a stop is entered and suspends on the session promise; the
    error handler enters a second one, which suspends on the same promise;
    the promise resolves and both resume: the session is closed twice. *)
Lemma overlapping_stops_before_open_close_twice :
  let first := fst (stop_enter Interleaving.connecting) in
  let second := fst (onerror first) in
  let resumed :=
    fst (stop_resume_session (Normal okSession)
           (fst (stop_resume_session (Normal okSession) second))) in
  snd (stop_enter Interleaving.connecting) = AwaitingSession okPromise
  /\ snd (onerror first) = AwaitingSession okPromise
  /\ events_since Interleaving.connecting resumed =
       [ConsoleError "Gemini API Error:"; SessionClose 1; TrackStop 1;
        ContextClose 1; SessionClose 1; ContextClose 1]
  /\ count is_SessionClose (events_since Interleaving.connecting resumed) = 2%nat
  /\ count is_SessionClose (events_since Interleaving.connecting resumed) <> 1%nat.
Proof.
  cbv zeta. split; [reflexivity|]. split; [reflexivity|].
  split; [reflexivity|]. split; [reflexivity|].
  intros H. cbv in H. discriminate H.
Qed.

(** C9.  When nothing was ever started, so that no ref holds anything,
    [stopCapture] returns without an error, makes no call at all and only
    sets [isCapturing] to false.  After an invocation of [stopCapture] that
    has returned, a further invocation returns too, makes no call and
    changes nothing. *)
Theorem stopCapture_idempotent :
  (forall (u : AppState.t) (l : list Event) (env : StopEnv),
      stopCapture env (mkWorld u None None None None l) =
      (mkWorld (AppState.setIsCapturing false u) None None None None l,
       Returned))
  /\ (forall (env env' : StopEnv) (w w' : World),
        stopCapture env w = (w', Returned) ->
        stopCapture env' w' = (w', Returned)
        /\ events_since w' (fst (stopCapture env' w')) = []).
Proof.
  split.
  - intros. reflexivity.
  - intros env env' w w' H.
    apply stopCapture_returned in H. destruct H as (H1 & H2 & H3 & H4 & H5).
    rewrite (stopCapture_after_stop env' w' H1 H2 H3 H4 H5). split; [reflexivity|].
    apply events_since_app. cbn [fst]. now rewrite app_nil_r.
Qed.

Lemma stopCapture_idempotent_witness :
  stopCapture okStopEnv (fst (stopCapture okStopEnv started)) =
  (fst (stopCapture okStopEnv started), Returned).
Proof.
  apply (proj2 stopCapture_idempotent okStopEnv okStopEnv started).
  reflexivity.
Defined.

(** Two invocations that overlap, the second entered (here from
    [onerror]) while the first is suspended on the session promise, both
    resume with the same session and both call its [close()]. *)
Remark overlapping_stops_close_twice :
  let '(w1, _) := stop_enter started in
  let '(w2, _) := onerror w1 in
  let '(w3, _) := stop_resume_session (Normal okSession) w2 in
  let '(w4, _) := stop_resume_session (Normal okSession) w3 in
  count is_SessionClose (events_since started w4) = 2%nat.
Proof. reflexivity. Qed.

(** *** [startCapture] *)

(** A whole session: a successful start, the deltas "The ", "quick " and
    "fox", a turn boundary, then a stop.  One finalized line, an empty
    current line, no error, and every ref released. *)
Example session_scenario :
  let w := update_ui
             (Assembler.assemble
                [Assembler.transcriptDelta (lit "The ");
                 Assembler.transcriptDelta (lit "quick ");
                 Assembler.transcriptDelta (lit "fox");
                 Assembler.turnCompleteMsg])
             started in
  stopCapture okStopEnv w =
  (mkWorld (AppState.mk false [lit "The quick fox"] [] None)
           None None None None
           (log started ++ [SessionClose 1; TrackStop 1;
                            ProcessorDisconnect 1; ContextClose 1]),
   Returned).
Proof. reflexivity. Qed.

Lemma start_enter_ui (w : World) :
  ui (start_enter w) = AppState.mk true [] [] None.
Proof. reflexivity. Qed.

(** [start_resume] never touches the transcript. *)
Lemma start_resume_transcript (env : StartEnv) (w : World) :
  AppState.transcripts (ui (start_resume env w)) = AppState.transcripts (ui w)
  /\ AppState.currentTranscript (ui (start_resume env w))
     = AppState.currentTranscript (ui w).
Proof.
  destruct env as [[stream|e1] [[]|e2] [ctx|e3] [p|e4]]; split; reflexivity.
Qed.

(** C10.  Every invocation of [startCapture] begins by emptying the
    finalized sequence, emptying the current line and clearing the error,
    before it makes its first call; whatever happens next, the finalized
    sequence and the current line are empty when the invocation ends, so no
    line of an earlier session is left. *)
Theorem startCapture_resets_transcript :
  forall (env : StartEnv) (w : World),
    AppState.transcripts (ui (start_enter w)) = []
    /\ AppState.currentTranscript (ui (start_enter w)) = []
    /\ AppState.error (ui (start_enter w)) = None
    /\ log (start_enter w) = log w ++ [GetUserMedia]
    /\ AppState.transcripts (ui (startCapture env w)) = []
    /\ AppState.currentTranscript (ui (startCapture env w)) = [].
Proof.
  intros env w. unfold startCapture.
  destruct (start_resume_transcript env (start_enter w)) as [-> ->].
  repeat split.
Qed.

(** A start that throws, at whatever step, ends with [isCapturing] false
    and the error message set. *)
Lemma startCapture_failure_reported (env : StartEnv) (w : World) :
  start_throws env = true ->
  AppState.isCapturing (ui (startCapture env w)) = false
  /\ AppState.error (ui (startCapture env w)) = Some micError.
Proof.
  destruct env as [[stream|e1] [[]|e2] [ctx|e3] [p|e4]];
    try discriminate; intros _; split; reflexivity.
Qed.

(** A start whose [getUserMedia] is refused acquires no stream. *)
Lemma startCapture_denied (e : Exn) (g : Completion unit)
      (c : Completion AudioContext) (s : Completion SessionPromise) (w : World) :
  let w' := startCapture {| getUserMedia := Throw e; new_GoogleGenAI := g;
                            new_AudioContext := c; live_connect := s |} w in
  streamRef w' = streamRef w /\ audioContextRef w' = audioContextRef w
  /\ sessionPromiseRef w' = sessionPromiseRef w.
Proof. repeat split. Qed.

(** C6, at the failing inputs.  When the microphone is granted and a later
    step of [startCapture] throws (the construction of the client or of the
    audio context, or the call that connects), the invocation ends with
    [isCapturing] false and the error message set, but the stream it
    acquired is still referenced and none of its tracks was stopped: the
    microphone stays open. *)
Theorem startCapture_failure_keeps_stream :
  forall (stream : MediaStream) (g : Completion unit)
         (c : Completion AudioContext) (s : Completion SessionPromise)
         (w : World),
    let env := {| getUserMedia := Normal stream; new_GoogleGenAI := g;
                  new_AudioContext := c; live_connect := s |} in
    start_throws env = true ->
    let w' := startCapture env w in
    AppState.isCapturing (ui w') = false
    /\ AppState.error (ui w') = Some micError
    /\ streamRef w' = Some stream
    /\ count is_TrackStop (events_since w w') = 0%nat.
Proof.
  intros stream g c s w env Hthrows w'.
  assert (L : exists es, log w' = log w ++ es /\ count is_TrackStop es = 0%nat).
  { subst env w'.
    destruct g as [[]|e1], c as [ctx|e2], s as [p|e3]; try discriminate;
      (eexists; split;
       [cbn -[app]; rewrite <- !app_assoc; reflexivity|reflexivity]). }
  destruct L as (es & L & Hes).
  rewrite (events_since_app w w' es L).
  subst env w'.
  destruct g as [[]|e1], c as [ctx|e2], s as [p|e3]; try discriminate;
    repeat split; exact Hes.
Qed.

Lemma startCapture_failure_keeps_stream_witness :
  streamRef (startCapture noContextEnv initial) = Some okStream
  /\ holds_live_stream (startCapture noContextEnv initial) = true
  /\ count is_TrackStop
       (events_since initial (startCapture noContextEnv initial)) = 0%nat.
Proof.
  destruct (startCapture_failure_keeps_stream
              okStream (Normal tt)
              (Throw (exn "AudioContext is not a constructor"))
              (Normal okPromise) initial) as (_ & _ & H1 & H2).
  - reflexivity.
  - split; [exact H1|split; [|exact H2]].
    unfold holds_live_stream, noContextEnv. rewrite H1. reflexivity.
Defined.

(** The sibling path: on a session error the handler calls [stopCapture],
    which stops the tracks of the stream. *)
Lemma onerror_releases_stream :
  let '(w1, _) := onerror started in
  let '(w2, _) := stop_resume_session (Normal okSession) w1 in
  streamRef w2 = None
  /\ count is_TrackStop (events_since started w2) = 1%nat.
Proof. split; reflexivity. Qed.

End CaptureFacts.

(* ================================================================== *)
(** ** More on the PCM encoder: order, zero band, wrap-around, and what a
    chunk determines *)

Module EncoderBounds.
Import JSString Encoder EncoderFacts.

Lemma inject_Z_lt (a b : Z) : (inject_Z a < inject_Z b)%Q <-> a < b.
Proof. unfold Qlt. simpl. lia. Qed.

(** [truncate] is monotone. *)
Lemma truncate_monotone (a b : Q) : (a <= b)%Q -> truncate a <= truncate b.
Proof.
  intros Hab.
  destruct (Qlt_le_dec a 0) as [Ha|Ha], (Qlt_le_dec b 0) as [Hb|Hb].
  - destruct (truncate_nonpos a) as (_ & A & _); [lra|].
    destruct (truncate_nonpos b) as (B & _ & _); [lra|].
    assert (H : (inject_Z (truncate a) < inject_Z (truncate b + 1))%Q).
    { rewrite inject_Z_plus. revert A B.
      generalize (inject_Z (truncate a)), (inject_Z (truncate b)).
      intros x y A B. change (inject_Z 1) with 1%Q. lra. }
    apply (proj1 (inject_Z_lt _ _)) in H. lia.
  - destruct (truncate_nonpos a) as (_ & _ & A); [lra|].
    destruct (truncate_nonneg b) as (_ & _ & B); [lra|]. lia.
  - exfalso. lra.
  - destruct (truncate_nonneg a) as (A & _ & _); [lra|].
    destruct (truncate_nonneg b) as (_ & B & _); [lra|].
    assert (H : (inject_Z (truncate a) < inject_Z (truncate b + 1))%Q).
    { rewrite inject_Z_plus. revert A B.
      generalize (inject_Z (truncate a)), (inject_Z (truncate b)).
      intros x y A B. change (inject_Z 1) with 1%Q. lra. }
    apply (proj1 (inject_Z_lt _ _)) in H. lia.
Qed.

Lemma truncate_inject_Z (n : Z) : truncate (inject_Z n) = n.
Proof. unfold truncate. simpl. apply Z.quot_1_r. Qed.

(** Bounds on [truncate] carried from the rationals to the integers. *)
Lemma truncate_ge (q : Q) (n : Z) : (inject_Z n <= q)%Q -> n <= truncate q.
Proof.
  intros H. rewrite <- (truncate_inject_Z n). now apply truncate_monotone.
Qed.

Lemma truncate_le (q : Q) (n : Z) : (q <= inject_Z n)%Q -> truncate q <= n.
Proof.
  intros H. rewrite <- (truncate_inject_Z n). now apply truncate_monotone.
Qed.

(** On [-1, 1] the stored sample is the truncated product. *)
Lemma sample16_unit_negative (q : Q) :
  (-1 <= q)%Q -> (q < 0)%Q -> sample16 (Finite q) = truncate (q * 32768).
Proof.
  intros Hlo Hneg. rewrite sample16_negative by assumption.
  apply ToInt16_exact. split.
  - apply truncate_ge. change (inject_Z (-32768)) with (-32768 # 1)%Q. lra.
  - pose proof (truncate_le (q * 32768) 0) as H.
    change (inject_Z 0) with 0%Q in H. specialize (H ltac:(lra)). lia.
Qed.

Lemma sample16_unit_nonnegative (q : Q) :
  (0 <= q)%Q -> (q <= 1)%Q -> sample16 (Finite q) = truncate (q * 32767).
Proof.
  intros Hlo Hhi. rewrite sample16_nonnegative by assumption.
  apply ToInt16_exact. split.
  - pose proof (truncate_ge (q * 32767) 0) as H.
    change (inject_Z 0) with 0%Q in H. specialize (H ltac:(lra)). lia.
  - apply truncate_le. change (inject_Z 32767) with (32767 # 1)%Q. lra.
Qed.

Lemma sample16_sign (q : Q) :
  (-1 <= q)%Q -> (q <= 1)%Q ->
  ((q < 0)%Q -> sample16 (Finite q) <= 0)
  /\ ((0 <= q)%Q -> 0 <= sample16 (Finite q)).
Proof.
  intros Hlo Hhi. split; intros H.
  - rewrite sample16_unit_negative by assumption.
    pose proof (truncate_le (q * 32768) 0) as T.
    change (inject_Z 0) with 0%Q in T. apply T. lra.
  - rewrite sample16_unit_nonnegative by assumption.
    pose proof (truncate_ge (q * 32767) 0) as T.
    change (inject_Z 0) with 0%Q in T. apply T. lra.
Qed.

(** Quantization keeps the order of the samples of [-1, 1]. *)
Theorem sample16_monotone :
  forall p q : Q,
    (-1 <= p)%Q -> (p <= q)%Q -> (q <= 1)%Q ->
    sample16 (Finite p) <= sample16 (Finite q).
Proof.
  intros p q Hlo Hpq Hhi.
  destruct (Qlt_le_dec p 0) as [Hp|Hp], (Qlt_le_dec q 0) as [Hq|Hq].
  - rewrite !sample16_unit_negative by lra.
    apply truncate_monotone. lra.
  - destruct (sample16_sign p) as [A _]; [lra..|].
    destruct (sample16_sign q) as [_ B]; [lra..|].
    specialize (A Hp). specialize (B Hq). lia.
  - exfalso. lra.
  - rewrite !sample16_unit_nonnegative by lra.
    apply truncate_monotone. lra.
Qed.

Lemma sample16_monotone_witness :
  sample16 (Finite (-1 # 2)) <= sample16 (Finite (1 # 3)).
Proof.
  apply sample16_monotone; unfold Qle; simpl; lia.
Defined.

(** The samples of [-1, 1] that are stored as 0 are exactly those strictly
    between -1/32768 and 1/32767. *)
Theorem sample16_zero_band :
  forall q : Q,
    (-1 <= q)%Q -> (q <= 1)%Q ->
    (sample16 (Finite q) = 0 <-> (-1 # 32768 < q)%Q /\ (q < 1 # 32767)%Q).
Proof.
  intros q Hlo Hhi.
  destruct (Qlt_le_dec q 0) as [Hq|Hq].
  - rewrite sample16_unit_negative by assumption.
    destruct (truncate_nonpos (q * 32768)) as (T1 & T2 & T3); [lra|].
    split.
    + intros E. rewrite E in T2. change (inject_Z 0) with 0%Q in T2.
      split; lra.
    + intros [H _].
      pose proof (truncate_ge (q * 32768) 0) as G.
      assert (K : -1 < truncate (q * 32768)).
      { apply inject_Z_lt. change (inject_Z (-1)) with (-1 # 1)%Q.
        revert T1. generalize (inject_Z (truncate (q * 32768))).
        intros t T1. lra. }
      lia.
  - rewrite sample16_unit_nonnegative by assumption.
    destruct (truncate_nonneg (q * 32767)) as (T1 & T2 & T3); [lra|].
    split.
    + intros E. rewrite E in T2. change (inject_Z 0) with 0%Q in T2.
      split; lra.
    + intros [_ H].
      assert (K : truncate (q * 32767) < 1).
      { apply inject_Z_lt. change (inject_Z 1) with 1%Q.
        revert T1. generalize (inject_Z (truncate (q * 32767))).
        intros t T1. lra. }
      lia.
Qed.

Lemma sample16_zero_band_witness :
  sample16 (Finite (1 # 40000)) = 0.
Proof.
  apply sample16_zero_band; unfold Qle, Qlt; simpl; lia.
Defined.

(** Where the reduction modulo 2^16 starts: the stored sample is the
    truncated product exactly for the samples above -32769/32768 and below
    32768/32767. *)
Theorem sample16_wraps_outside :
  forall q : Q,
    ((q < 0)%Q ->
     (sample16 (Finite q) = truncate (q * 32768) <-> (-32769 # 32768 < q)%Q))
    /\ ((0 <= q)%Q ->
        (sample16 (Finite q) = truncate (q * 32767) <-> (q < 32768 # 32767)%Q)).
Proof.
  intros q. split; intros Hq.
  - rewrite sample16_negative by assumption.
    destruct (truncate_nonpos (q * 32768)) as (T1 & T2 & T3); [lra|].
    split.
    + intros E.
      pose proof (ToInt16_range (Finite (q * 32768))) as [R _].
      rewrite E in R.
      assert (K : (inject_Z (-32768) <= inject_Z (truncate (q * 32768)))%Q)
        by now apply inject_Z_le.
      change (inject_Z (-32768)) with (-32768 # 1)%Q in K.
      revert T2 K. generalize (inject_Z (truncate (q * 32768))).
      intros t T2 K. lra.
    + intros H. apply ToInt16_exact. split; [|lia].
      assert (K : -32769 < truncate (q * 32768)).
      { apply inject_Z_lt. change (inject_Z (-32769)) with (-32769 # 1)%Q.
        revert T1. generalize (inject_Z (truncate (q * 32768))).
        intros t T1. lra. }
      lia.
  - rewrite sample16_nonnegative by assumption.
    destruct (truncate_nonneg (q * 32767)) as (T1 & T2 & T3); [lra|].
    split.
    + intros E.
      pose proof (ToInt16_range (Finite (q * 32767))) as [_ R].
      rewrite E in R.
      assert (K : (inject_Z (truncate (q * 32767)) <= inject_Z 32767)%Q)
        by now apply inject_Z_le.
      change (inject_Z 32767) with (32767 # 1)%Q in K.
      revert T2 K. generalize (inject_Z (truncate (q * 32767))).
      intros t T2 K. lra.
    + intros H. apply ToInt16_exact. split; [lia|].
      assert (K : truncate (q * 32767) < 32768).
      { apply inject_Z_lt. change (inject_Z 32768) with (32768 # 1)%Q.
        revert T1. generalize (inject_Z (truncate (q * 32767))).
        intros t T1. lra. }
      lia.
Qed.

Lemma sample16_wraps_outside_witness :
  sample16 (Finite (1 # 2)) = truncate ((1 # 2) * 32767).
Proof.
  apply (proj2 (sample16_wraps_outside (1 # 2)%Q)).
  - unfold Qle. simpl. lia.
  - unfold Qlt. simpl. lia.
Defined.

(** [encode] on the bytes of a [Uint8Array]: it does not throw, its text
    decodes to the bytes, and so two arrays with the same text are equal. *)
Theorem encode_injective :
  forall a b : list Z,
    Forall is_byte a -> Forall is_byte b ->
    (exists text, encode a = Some text /\ base64_decode text = Some a)
    /\ (encode a = encode b -> a = b).
Proof.
  intros a b Ha Hb. split.
  - exists (b64groups a). split.
    + now apply encode_of_bytes.
    + now apply base64_decode_b64groups.
  - rewrite !encode_of_bytes by assumption. intros E.
    injection E as E.
    apply (f_equal base64_decode) in E.
    rewrite !base64_decode_b64groups in E by assumption. congruence.
Qed.

Lemma encode_injective_witness :
  exists text, encode [255; 127] = Some text
               /\ base64_decode text = Some [255; 127].
Proof.
  apply (encode_injective [255; 127] [255; 127; 0]);
    repeat constructor; unfold is_byte; lia.
Defined.

Lemma createBlob_payload (samples : list number) :
  createBlob samples =
  Some {| data := b64groups (buffer_bytes (map sample16 samples));
          mimeType := lit "audio/pcm;rate=16000" |}.
Proof.
  unfold createBlob.
  now rewrite (encode_of_bytes _ (buffer_bytes_are_bytes _)).
Qed.

Lemma samples_of_payload (samples : list number) :
  bind_opt (base64_decode (b64groups (buffer_bytes (map sample16 samples))))
           int16_le_samples
  = Some (map sample16 samples).
Proof.
  rewrite base64_decode_b64groups by apply buffer_bytes_are_bytes.
  cbn [bind_opt]. apply int16_le_samples_buffer_bytes.
  apply Forall_forall. intros v Hv. apply in_map_iff in Hv.
  destruct Hv as (x & <- & _). apply sample16_range.
Qed.

(** Two blocks give the same chunk exactly when they give the same 16-bit
    samples: the chunk loses nothing of the quantized block and adds
    nothing to it. *)
Theorem createBlob_same_chunk :
  forall a b : list number,
    createBlob a = createBlob b <-> map sample16 a = map sample16 b.
Proof.
  intros a b. rewrite !createBlob_payload. split.
  - intros E. injection E as E.
    pose proof (samples_of_payload a) as Sa.
    pose proof (samples_of_payload b) as Sb.
    rewrite E in Sa. congruence.
  - now intros ->.
Qed.

Lemma createBlob_same_chunk_witness :
  createBlob [Finite (1 # 2)] = createBlob [Finite (16383 # 32767)].
Proof. apply createBlob_same_chunk. reflexivity. Defined.

End EncoderBounds.

(* ================================================================== *)
(** ** More on the transcript assembler: what a sequence of messages can
    and cannot do to the state *)

Module AssemblerInvariants.
Import JSString AppState Assembler JSStringFacts AssemblerFacts Readings.

Lemma trimEnd_fixed (s : jsstring) :
  match rev s with [] => True | c :: _ => isWhiteSpace c = false end ->
  trimEnd s = s.
Proof.
  intros H. unfold trimEnd. rewrite trimStart_idem_head by exact H.
  apply rev_involutive.
Qed.

(** [trim] leaves a trimmed string as it is. *)
Lemma trim_idempotent (s : jsstring) : trim (trim s) = trim s.
Proof.
  destruct (trim_split s) as (l & r & _ & _ & _ & Hh & Hl).
  unfold trim at 1.
  rewrite trimStart_idem_head by exact Hh.
  now apply trimEnd_fixed.
Qed.

(** What one message does to the state. *)
Lemma onmessage_step (message : LiveServerMessage) (st : AppState.t) :
  exists added,
    transcripts (onmessage message st) = transcripts st ++ added
    /\ Forall is_trimmed_line added
    /\ (List.length added <= if get_turnComplete message then 1 else 0)%nat
    /\ isCapturing (onmessage message st) = isCapturing st
    /\ error (onmessage message st) = error st.
Proof.
  unfold onmessage.
  set (st1 := match get_inputTranscription message with
              | Some tr => setCurrentTranscript (appendDelta (text tr)) st
              | None => st
              end).
  assert (H1 : transcripts st1 = transcripts st
               /\ isCapturing st1 = isCapturing st /\ error st1 = error st).
  { subst st1. destruct (get_inputTranscription message); repeat split. }
  destruct H1 as (Ht & Hc & He).
  destruct (get_turnComplete message).
  - unfold setCurrentTranscript, flushTurn.
    destruct (trim (currentTranscript st1)) as [|c line] eqn:E; simpl.
    + exists []. rewrite app_nil_r. repeat split; auto.
    + exists [c :: line]. rewrite Ht. repeat split; auto.
      constructor; [|constructor]. split; [discriminate|].
      rewrite <- E. apply trim_idempotent.
  - exists []. rewrite app_nil_r. repeat split; auto.
Qed.

(** The finalized sequence only grows, by trimmed non-empty lines, at most
    one per turn boundary; the capture flag and the error are left alone. *)
Theorem assemble_append_only :
  forall (messages : list LiveServerMessage) (st : AppState.t),
    exists added,
      transcripts (assemble messages st) = transcripts st ++ added
      /\ Forall is_trimmed_line added
      /\ (List.length added <= count_turnComplete messages)%nat
      /\ isCapturing (assemble messages st) = isCapturing st
      /\ error (assemble messages st) = error st.
Proof.
  induction messages as [|m ms IH]; intros st.
  - exists []. rewrite app_nil_r. repeat split; auto.
  - change (assemble (m :: ms) st) with (assemble ms (onmessage m st)).
    destruct (onmessage_step m st) as (a1 & T1 & F1 & L1 & C1 & E1).
    destruct (IH (onmessage m st)) as (a2 & T2 & F2 & L2 & C2 & E2).
    exists (a1 ++ a2). repeat split.
    + rewrite T2, T1. now rewrite app_assoc.
    + now apply Forall_app.
    + rewrite length_app. unfold count_turnComplete in *. simpl.
      destruct (get_turnComplete m); simpl; lia.
    + congruence.
    + congruence.
Qed.

Lemma assemble_deltas (chunks : list jsstring) (st : AppState.t) :
  assemble (map transcriptDelta chunks) st =
  mk (isCapturing st) (transcripts st)
     (currentTranscript st ++ List.concat chunks) (error st).
Proof.
  revert st. induction chunks as [|c cs IH]; intros st.
  - simpl. rewrite app_nil_r. now destruct st.
  - change (assemble (map transcriptDelta (c :: cs)) st)
      with (assemble (map transcriptDelta cs) (onmessage (transcriptDelta c) st)).
    rewrite IH, onmessage_delta. simpl. now rewrite <- app_assoc.
Qed.

(** How a turn's text is cut into deltas does not matter: two sequences of
    deltas with the same concatenation, each followed by a turn boundary,
    lead to the same state, in which the turn's line is the trimmed
    concatenation of the current line and the deltas. *)
Theorem assemble_chunking :
  forall (chunks chunks' : list jsstring) (st : AppState.t),
    List.concat chunks = List.concat chunks' ->
    assemble (map transcriptDelta chunks ++ [turnCompleteMsg]) st =
    assemble (map transcriptDelta chunks' ++ [turnCompleteMsg]) st
    /\ assemble (map transcriptDelta chunks ++ [turnCompleteMsg]) st =
       mk (isCapturing st)
          (match trim (currentTranscript st ++ List.concat chunks) with
           | [] => transcripts st
           | line => transcripts st ++ [line]
           end)
          [] (error st).
Proof.
  intros chunks chunks' st E.
  rewrite !assemble_app, !assemble_deltas, E. split; [reflexivity|].
  simpl. now rewrite onmessage_turnComplete.
Qed.

Lemma assemble_chunking_witness :
  assemble (map transcriptDelta [lit "He"; lit "llo"] ++ [turnCompleteMsg])
           AppState.initial =
  assemble (map transcriptDelta [lit "Hello"] ++ [turnCompleteMsg])
           AppState.initial.
Proof.
  apply (assemble_chunking [lit "He"; lit "llo"] [lit "Hello"] AppState.initial).
  reflexivity.
Defined.

(** A turn boundary on a line that is not blank stores exactly one entry:
    the line without a prefix and a suffix of white space, the inside of
    the line being kept as it is. *)
Theorem turnComplete_stores_stripped_line :
  forall st : AppState.t,
    all_whitespace (currentTranscript st) = false ->
    exists before entry after,
      currentTranscript st = before ++ entry ++ after
      /\ all_whitespace before = true /\ all_whitespace after = true
      /\ match entry with [] => False | c :: _ => isWhiteSpace c = false end
      /\ match rev entry with [] => False | c :: _ => isWhiteSpace c = false end
      /\ onmessage turnCompleteMsg st =
         mk (isCapturing st) (transcripts st ++ [entry]) [] (error st).
Proof.
  intros st Hb.
  destruct (trim_split (currentTranscript st)) as (l & r & E & Hl & Hr & Hh & Ht).
  assert (Hne : trim (currentTranscript st) <> []).
  { intros H. apply trim_blank in H. congruence. }
  exists l, (trim (currentTranscript st)), r.
  rewrite onmessage_turnComplete.
  destruct (trim (currentTranscript st)) as [|c line] eqn:Et; [congruence|].
  repeat split; auto.
  destruct (rev (c :: line)) eqn:Er; [|exact Ht].
  apply (f_equal (@rev Z)) in Er. rewrite rev_involutive in Er. discriminate.
Qed.

Lemma turnComplete_stores_stripped_line_witness :
  exists before entry after,
    lit "  a b " = before ++ entry ++ after
    /\ all_whitespace before = true /\ all_whitespace after = true
    /\ match entry with [] => False | c :: _ => isWhiteSpace c = false end
    /\ match rev entry with [] => False | c :: _ => isWhiteSpace c = false end
    /\ onmessage turnCompleteMsg (mk true [] (lit "  a b ") None) =
       mk true ([] ++ [entry]) [] None.
Proof.
  apply (turnComplete_stores_stripped_line (mk true [] (lit "  a b ") None)).
  reflexivity.
Defined.

End AssemblerInvariants.

(* ================================================================== *)
(** ** More on the capture manager: outcomes of a stop, callbacks that
    arrive around it, starts that fail or repeat, and the audio callback *)

Module CaptureLifecycle.
Import JSString Encoder Capture CaptureFacts AudioCallback Readings.
Import EncoderFacts EncoderBounds.

(** Case analysis on what the environment answers to a stop. *)
Ltac case_stop_env env :=
  let sid := fresh "sid" in
  let e := fresh "e" in
  let e' := fresh "e" in
  destruct env as [[[sid []]|e] [[]|e']].

Lemma filter_track_stops (stream : MediaStream) :
  filter is_TrackStop (track_stops stream) = track_stops stream.
Proof.
  unfold track_stops. induction (tracks stream) as [|t ts IH]; simpl;
    [reflexivity|now rewrite IH].
Qed.

(** The refs after one whole invocation of [stopCapture]. *)
Lemma stopCapture_refs (env : StopEnv) (w : World) :
  sessionPromiseRef (fst (stopCapture env w)) = None
  /\ streamRef (fst (stopCapture env w)) = None
  /\ scriptProcessorRef (fst (stopCapture env w)) = None.
Proof. case_stop_env env; destruct w as [u [p|] [[c []]|] [stream|] [node|] l]; repeat split. Qed.

Lemma stopCapture_ui (env : StopEnv) (w : World) :
  ui (fst (stopCapture env w)) = AppState.setIsCapturing false (ui w).
Proof. case_stop_env env; destruct w as [u [p|] [[c []]|] [stream|] [node|] l]; reflexivity. Qed.

(** [stopCapture] leaves the transcript and the error on display: it only
    lowers the capture flag. *)
Theorem stopCapture_keeps_transcript :
  forall (env : StopEnv) (w : World),
    let w' := fst (stopCapture env w) in
    AppState.transcripts (ui w') = AppState.transcripts (ui w)
    /\ AppState.currentTranscript (ui w') = AppState.currentTranscript (ui w)
    /\ AppState.error (ui w') = AppState.error (ui w)
    /\ AppState.isCapturing (ui w') = false.
Proof. intros env w w'. subst w'. rewrite stopCapture_ui. repeat split. Qed.

(** One whole invocation of [stopCapture] always ends, and always forgets
    the session promise, the stream and the processor.  It ends by throwing
    only when the context had to be closed and its [close()] was rejected;
    the context then stays referenced, and it is forgotten in every other
    case but the one where it was found closed. *)
Theorem stopCapture_outcome :
  forall (env : StopEnv) (w : World),
    let w' := fst (stopCapture env w) in
    sessionPromiseRef w' = None /\ streamRef w' = None
    /\ scriptProcessorRef w' = None
    /\ snd (stopCapture env w) =
       match audioContextRef w with
       | Some ctx =>
           match state ctx, context_close_settles env with
           | closed, _ => Returned
           | _, Normal _ => Returned
           | _, Throw e => Threw e
           end
       | None => Returned
       end
    /\ audioContextRef w' =
       match audioContextRef w with
       | Some ctx =>
           match state ctx, context_close_settles env with
           | closed, _ => Some ctx
           | _, Normal _ => None
           | _, Throw _ => Some ctx
           end
       | None => None
       end.
Proof.
  intros env w w'. subst w'.
  case_stop_env env; destruct w as [u [p|] [[c []]|] [stream|] [node|] l];
    repeat split.
Qed.

Import Interleaving.




(** From nothing referenced, a start in which every call succeeds, the
    opening of the connection, and a stop whose awaits are fulfilled leave
    nothing referenced, with every track of the stream stopped, the
    processor disconnected, the context closed and the session closed. *)
Theorem start_then_stop_releases :
  forall (u : AppState.t) (l : list Event) (stream : MediaStream)
         (ctx : AudioContext) (promise : SessionPromise)
         (node : ScriptProcessorNode) (session : Session),
    state ctx <> closed ->
    let w := onopen node (startCapture (grantedEnv stream ctx promise) (idle u l)) in
    stopCapture {| session_settles := Normal session;
                   context_close_settles := Normal tt |} w =
    (idle (AppState.mk false [] [] None)
          (log w
           ++ SessionClose (session_id session)
              :: (if close_throws session
                  then [ConsoleError "Error closing session:"] else [])
           ++ track_stops stream
           ++ [ProcessorDisconnect (node_id node);
               ContextClose (context_id ctx)]),
     Returned).
Proof.
  intros u l stream [cid st] promise node [sid throws] Hst w. subst w.
  destruct st; [| |exfalso; apply Hst; reflexivity]; destruct throws;
    cbv -[app track_stops]; do 2 f_equal;
    rewrite <- !app_assoc; reflexivity.
Qed.

Lemma start_then_stop_releases_witness :
  fst (stopCapture okStopEnv started) =
  idle (AppState.mk false [] [] None)
       (log started ++ [SessionClose 1; TrackStop 1; ProcessorDisconnect 1;
                        ContextClose 1]).
Proof.
  apply (f_equal fst
           (start_then_stop_releases AppState.initial [] okStream okContext
              okPromise {| node_id := 1 |} okSession
              ltac:(discriminate))).
Defined.

(** A graph wired while a stop is suspended on the session promise is torn
    down when the stop resumes: the processor that [onopen] created is
    disconnected and forgotten. *)
Theorem graph_wired_during_stop_is_torn_down :
  forall (w : World) (promise : SessionPromise) (ctx : AudioContext)
         (stream : MediaStream) (node : ScriptProcessorNode)
         (settled : Completion Session),
    sessionPromiseRef w = Some promise ->
    audioContextRef w = Some ctx ->
    streamRef w = Some stream ->
    let suspended := fst (stop_enter w) in
    let wired := onopen node suspended in
    let resumed := fst (stop_resume_session settled wired) in
    scriptProcessorRef wired = Some node
    /\ scriptProcessorRef resumed = None
    /\ streamRef resumed = None
    /\ sessionPromiseRef resumed = None
    /\ count is_ProcessorDisconnect (events_since wired resumed) = 1%nat
    /\ In (ProcessorDisconnect (node_id node)) (events_since wired resumed).
Proof.
  intros w promise ctx stream node settled Hp Hc Hs suspended wired resumed.
  destruct w as [u sp ac sr pr l]. cbn in Hp, Hc, Hs. subst sp ac sr.
  assert (L : log resumed =
              log wired ++ session_events settled ++ track_stops stream
              ++ [ProcessorDisconnect (node_id node)]
              ++ match state ctx with
                 | closed => []
                 | _ => [ContextClose (context_id ctx)]
                 end).
  { subst resumed. rewrite stop_resume_session_log. reflexivity. }
  rewrite (events_since_app _ _ _ L).
  repeat split.
  - subst resumed wired suspended.
    destruct settled as [[sid []]|e], ctx as [cid []]; reflexivity.
  - subst resumed wired suspended.
    destruct settled as [[sid []]|e], ctx as [cid []]; reflexivity.
  - subst resumed wired suspended.
    destruct settled as [[sid []]|e], ctx as [cid []]; reflexivity.
  - rewrite !count_app.
    assert (T : count is_ProcessorDisconnect (track_stops stream) = 0%nat).
    { unfold track_stops, count. induction (tracks stream); simpl; auto. }
    rewrite T.
    destruct settled as [[sid []]|e], (state ctx); reflexivity.
  - apply in_or_app. right. apply in_or_app. right.
    left. reflexivity.
Qed.

Lemma graph_wired_during_stop_is_torn_down_witness :
  scriptProcessorRef
    (fst (stop_resume_session (Normal okSession)
            (onopen {| node_id := 1 |}
                    (fst (stop_enter (startCapture okStartEnv initial))))))
  = None.
Proof.
  apply (graph_wired_during_stop_is_torn_down
           (startCapture okStartEnv initial) okPromise okContext okStream
           {| node_id := 1 |} (Normal okSession));
    reflexivity.
Defined.

(** A refused microphone: the start logs the error, shows the message,
    lowers the capture flag, and changes no ref; it makes no call after
    [getUserMedia]. *)
Theorem startCapture_refused :
  forall (e : Exn) (g : Completion unit) (c : Completion AudioContext)
         (s : Completion SessionPromise) (w : World),
    let w' := startCapture {| getUserMedia := Throw e; new_GoogleGenAI := g;
                              new_AudioContext := c; live_connect := s |} w in
    ui w' = AppState.mk false [] [] (Some micError)
    /\ sessionPromiseRef w' = sessionPromiseRef w
    /\ audioContextRef w' = audioContextRef w
    /\ streamRef w' = streamRef w
    /\ scriptProcessorRef w' = scriptProcessorRef w
    /\ events_since w w' =
       [GetUserMedia; ConsoleError "Error starting capture:"].
Proof.
  intros e g c s w w'. subst w'. repeat split.
  apply events_since_app. cbn -[app]. now rewrite <- !app_assoc.
Qed.

(** A start never stops a track, whatever is referenced when it is called:
    when a stream is already referenced, a start that succeeds replaces it
    by the new one, and the stop that follows stops the tracks of the new
    stream only. *)
Theorem restart_keeps_earlier_stream_open :
  forall (w : World) (stream : MediaStream) (ctx : AudioContext)
         (promise : SessionPromise) (env : StopEnv),
    let w' := startCapture (grantedEnv stream ctx promise) w in
    count is_TrackStop (events_since w w') = 0%nat
    /\ streamRef w' = Some stream
    /\ filter is_TrackStop (events_since w' (fst (stopCapture env w')))
       = track_stops stream.
Proof.
  intros w stream ctx promise env w'.
  assert (L : log w' = log w ++ [GetUserMedia; NewAudioContext (context_id ctx);
                                 LiveConnect (promise_id promise)]).
  { subst w'. cbn -[app]. now rewrite <- !app_assoc. }
  rewrite (events_since_app _ _ _ L).
  assert (S : streamRef w' = Some stream) by reflexivity.
  repeat split.
  rewrite stopCapture_events. unfold teardown_events. rewrite S.
  rewrite !filter_app, filter_track_stops.
  replace (filter is_TrackStop
             match sessionPromiseRef w' with
             | Some _ => session_events (session_settles env)
             | None => []
             end) with (@nil Event).
  - destruct (scriptProcessorRef w') as [n|], (audioContextRef w') as [[cid []]|];
      simpl; now rewrite ?app_nil_r.
  - destruct (sessionPromiseRef w'); [|reflexivity].
    destruct (session_settles env) as [[sid []]|e]; reflexivity.
Qed.

Lemma onaudioprocess_value (inputData : list number) (w : World) :
  onaudioprocess inputData w =
  Normal match sessionPromiseRef w with
         | Some promise =>
             Some {| awaited := promise;
                     media := {| data := b64groups
                                           (buffer_bytes (map sample16 inputData));
                                 mimeType := lit "audio/pcm;rate=16000" |} |}
         | None => None
         end.
Proof. unfold onaudioprocess. now rewrite createBlob_payload. Qed.

(** The audio callback does not throw.  It registers a send exactly when a
    session promise is referenced, with the chunk of the block it was
    given, from which the block's 16-bit samples can be read back; the
    chunk is sent once, to the session the promise resolves to, and not at
    all when the promise is rejected. *)
Theorem onaudioprocess_registers_chunk :
  forall (inputData : list number) (w : World),
    exists pcmBlob,
      createBlob inputData = Some pcmBlob
      /\ bind_opt (base64_decode (data pcmBlob)) int16_le_samples
         = Some (map sample16 inputData)
      /\ onaudioprocess inputData w =
         Normal match sessionPromiseRef w with
                | Some promise => Some {| awaited := promise; media := pcmBlob |}
                | None => None
                end
      /\ (forall promise session,
            react (Normal session) {| awaited := promise; media := pcmBlob |}
            = [SendRealtimeInput (session_id session) pcmBlob])
      /\ (forall promise e,
            react (Throw e) {| awaited := promise; media := pcmBlob |} = []).
Proof.
  intros inputData w. eexists. split; [apply createBlob_payload|].
  split; [apply samples_of_payload|].
  split; [apply onaudioprocess_value|]. split; reflexivity.
Qed.


(** The limit of the two facts above: a start that was suspended at
    [getUserMedia] when the stop ran sets the refs when it resumes, and the
    callbacks that follow wire the graph and register sends. *)
Remark start_resumed_after_stop_rearms :
  let prompted := start_enter initial in
  let stopped := fst (stopCapture okStopEnv prompted) in
  let resumed := start_resume okStartEnv stopped in
  let wired := onopen {| node_id := 1 |} resumed in
  snd (stopCapture okStopEnv prompted) = Returned
  /\ scriptProcessorRef wired = Some {| node_id := 1 |}
  /\ exists r, onaudioprocess [Finite 1] wired = Normal (Some r).
Proof. repeat split. eexists. reflexivity. Qed.

(** A start that threw after the microphone was granted leaves the session
    promise ref and the processor ref as they were and the granted stream
    referenced.  A later stop stops exactly the tracks of that stream and
    forgets it; when no session promise was referenced before the start,
    that stop does not wait for any and goes straight to the teardown. *)
Theorem stop_after_failed_start :
  forall (stream : MediaStream) (g : Completion unit)
         (c : Completion AudioContext) (s : Completion SessionPromise)
         (w : World) (env' : StopEnv),
    let env := {| getUserMedia := Normal stream; new_GoogleGenAI := g;
                  new_AudioContext := c; live_connect := s |} in
    start_throws env = true ->
    let failed := startCapture env w in
    sessionPromiseRef failed = sessionPromiseRef w
    /\ scriptProcessorRef failed = scriptProcessorRef w
    /\ streamRef failed = Some stream
    /\ (sessionPromiseRef w = None ->
        stop_enter failed
        = stop_teardown (update_ui (AppState.setIsCapturing false) failed))
    /\ filter is_TrackStop (events_since failed (fst (stopCapture env' failed)))
       = track_stops stream
    /\ streamRef (fst (stopCapture env' failed)) = None.
Proof.
  intros stream g c s w env' env Hthrows failed.
  assert (Hp : sessionPromiseRef failed = sessionPromiseRef w).
  { subst failed env.
    destruct g as [[]|e1], c as [ctx|e2], s as [p|e3];
      try discriminate; reflexivity. }
  assert (Hs : streamRef failed = Some stream).
  { subst failed env.
    destruct g as [[]|e1], c as [ctx|e2], s as [p|e3];
      try discriminate; reflexivity. }
  assert (Hn : scriptProcessorRef failed = scriptProcessorRef w).
  { subst failed env.
    destruct g as [[]|e1], c as [ctx|e2], s as [p|e3];
      try discriminate; reflexivity. }
  repeat split; try assumption.
  - intros Hw. unfold stop_enter.
    change (sessionPromiseRef (update_ui (AppState.setIsCapturing false) failed))
      with (sessionPromiseRef failed).
    now rewrite Hp, Hw.
  - rewrite stopCapture_events. unfold teardown_events.
    rewrite Hs. rewrite !filter_app, filter_track_stops.
    replace (filter is_TrackStop
               match sessionPromiseRef failed with
               | Some _ => session_events (session_settles env')
               | None => []
               end) with (@nil Event).
    + destruct (scriptProcessorRef failed) as [n|],
               (audioContextRef failed) as [[cid []]|];
        simpl; now rewrite ?app_nil_r.
    + destruct (sessionPromiseRef failed); [|reflexivity].
      destruct (session_settles env') as [[sid []]|e]; reflexivity.
  - apply stopCapture_refs.
Qed.

Lemma stop_after_failed_start_witness :
  streamRef (fst (stopCapture okStopEnv (startCapture noContextEnv started)))
  = None
  /\ sessionPromiseRef (startCapture noContextEnv started) = Some okPromise.
Proof.
  destruct (stop_after_failed_start okStream (Normal tt)
              (Throw (exn "AudioContext is not a constructor"))
              (Normal okPromise) started okStopEnv) as (H1 & _ & _ & _ & _ & H2).
  - reflexivity.
  - split; [exact H2|exact H1].
Defined.

End CaptureLifecycle.
